(** * nest-template: query compiler, driver retry, repository facade, lease lock

    A shallow embedding of the resilient resource-access core of the
    service template:

    - [Dialect]   : [BaseDialect] / [MySQLDialect] (the query compiler),
    - [Driver]    : [MySQLDriver.retryOnConnectionError] / [recreatePool],
    - [Table]     : the repository facade ([adds], [update], [upsert]),
    - [MutexLock] : the Redis lease lock ([safeRun] and auto-renewal).

    TypeScript values are modelled by the inductive [Value]; a JavaScript
    object is the list of its own enumerable properties in [Object.keys]
    order; a thrown exception is the [Throw] branch of the [Res] monad. *)

From Stdlib Require Import ZArith String List Ascii DecimalString QArith Qround.
From Stdlib Require OrderedTypeEx.
From stdpp Require Import gmap strings list sorting.
Import ListNotations.

Local Set Warnings "-register-all".

(** ** JavaScript values and exceptions *)

Module Js.

(** Runtime values that reach the core.  Numbers are the integral ones (the
    compiler only transports them); a [Date] is carried by its
    [toISOString()] rendering. *)
Inductive Value : Type :=
  | VUndefined
  | VNull
  | VBool (b : bool)
  | VNum (n : Z)
  | VStr (s : string)
  | VDate (iso : string)
  | VArr (items : list Value)
  | VObj (props : list (string * Value)).

(** A thrown [Error]: the optional [code] set by the network layer and the
    [message]. *)
Record Exn : Type := mkExn { code : option string; message : string }.

Definition Error (msg : string) : Exn := {| code := None; message := msg |}.

Inductive Res (A : Type) : Type :=
  | Ok (a : A)
  | Throw (e : Exn).
Arguments Ok {A} a.
Arguments Throw {A} e.

Definition bind {A B} (m : Res A) (k : A -> Res B) : Res B :=
  match m with
  | Ok a => k a
  | Throw e => Throw e
  end.

Definition Z_to_string (z : Z) : string := NilZero.string_of_int (Z.to_int z).
Definition nat_to_string (n : nat) : string := Z_to_string (Z.of_nat n).

(** [Array.prototype.join] on strings. *)
Definition join (sep : string) (l : list string) : string := String.concat sep l.

(** Truthiness of a string: the empty string is falsy. *)
Definition truthy (s : string) : bool := negb (String.eqb s "").

(** [String(v)] as used by template literals.  A [Date] prints through its
    ISO rendering here (the engine's [Date.prototype.toString] is
    locale-formatted). *)
Fixpoint toString (v : Value) : string :=
  match v with
  | VUndefined => "undefined"
  | VNull => "null"
  | VBool true => "true"
  | VBool false => "false"
  | VNum n => Z_to_string n
  | VStr s => s
  | VDate iso => iso
  | VArr items =>
      join "," (map (fun x => match x with
                              | VUndefined | VNull => ""
                              | _ => toString x
                              end) items)
  | VObj _ => "[object Object]"
  end.

(** Index keys ["0"; "1"; ...] of an array of the given length, from [i]. *)
Fixpoint indexed {A} (i : nat) (l : list A) : list (string * A) :=
  match l with
  | [] => []
  | x :: xs => (nat_to_string i, x) :: indexed (S i) xs
  end.

(** Own enumerable properties, as [Object.keys] / [for...in] see them. *)
Definition ownProps (v : Value) : list (string * Value) :=
  match v with
  | VObj props => props
  | VArr items => indexed 0 items
  | _ => []
  end.

(** [String.prototype.toUpperCase], on the ASCII letters. *)
Definition upperAscii (c : ascii) : ascii :=
  let n := nat_of_ascii c in
  if (97 <=? n)%nat && (n <=? 122)%nat then ascii_of_nat (n - 32) else c.

Fixpoint toUpperCase (s : string) : string :=
  match s with
  | EmptyString => EmptyString
  | String c rest => String (upperAscii c) (toUpperCase rest)
  end.

(** [String.prototype.split] on a one-character separator. *)
Fixpoint split (sep : ascii) (s : string) : list string :=
  match s with
  | EmptyString => [EmptyString]
  | String c rest =>
      if Ascii.eqb c sep then EmptyString :: split sep rest
      else match split sep rest with
           | [] => [String c EmptyString]
           | h :: t => String c h :: t
           end
  end.

(** The double-quote character, for messages that quote a name. *)
Definition dquote : string := String "034"%char EmptyString.

(** Runs [f] over a list, stopping at the first exception. *)
Fixpoint mapRes {A B} (f : A -> Res B) (l : list A) : Res (list B) :=
  match l with
  | [] => Ok []
  | x :: xs =>
      match f x with
      | Throw e => Throw e
      | Ok y => match mapRes f xs with
                | Throw e => Throw e
                | Ok ys => Ok (y :: ys)
                end
      end
  end.

(** [String.prototype.includes]. *)
Fixpoint includes (needle hay : string) : bool :=
  if String.prefix needle hay then true
  else match hay with
       | EmptyString => false
       | String _ rest => includes needle rest
       end.

End Js.

Import Js.

(** [x ← m; k] sequences two computations that may throw. *)
#[global] Instance Res_bind : MBind Res := fun _ _ k m => bind m k.
#[global] Instance Res_ret : MRet Res := fun _ a => Ok a.

(** ** The query compiler *)

Module Dialect.

(** [ValueHolders]: SQL text and its positional parameters. *)
Record ValueHolders : Type := mkVH { prepare : string; holders : list Value }.

Definition emptyVH : ValueHolders := {| prepare := ""; holders := [] |}.

(** Keys of [OperatorMap]. *)
Inductive Operator : Type :=
  | eq_ | ne | gt | gte | lt | lte
  | in_ | notIn | between | notBetween
  | like | notLike | rlike | notRlike
  | isNull | isNotNull
  | startsWith | endsWith | contains.

Definition OperatorMap (op : Operator) : string :=
  match op with
  | eq_ => "=" | ne => "!=" | gt => ">" | gte => ">=" | lt => "<" | lte => "<="
  | in_ => "IN" | notIn => "NOT IN"
  | between => "BETWEEN" | notBetween => "NOT BETWEEN"
  | like => "LIKE" | notLike => "NOT LIKE"
  | rlike => "RLIKE" | notRlike => "NOT RLIKE"
  | isNull => "IS NULL" | isNotNull => "IS NOT NULL"
  | startsWith => "LIKE" | endsWith => "LIKE" | contains => "LIKE"
  end.

(** The property name of an operator, and the reading of a property name as
    an operator (the [default] branch of the [switch] is [None]). *)
Definition operatorKey (op : Operator) : string :=
  match op with
  | eq_ => "eq" | ne => "ne" | gt => "gt" | gte => "gte" | lt => "lt" | lte => "lte"
  | in_ => "in" | notIn => "notIn"
  | between => "between" | notBetween => "notBetween"
  | like => "like" | notLike => "notLike"
  | rlike => "rlike" | notRlike => "notRlike"
  | isNull => "isNull" | isNotNull => "isNotNull"
  | startsWith => "startsWith" | endsWith => "endsWith" | contains => "contains"
  end.

Definition allOperators : list Operator :=
  [eq_; ne; gt; gte; lt; lte; in_; notIn; between; notBetween;
   like; notLike; rlike; notRlike; isNull; isNotNull;
   startsWith; endsWith; contains].

Definition parseOperator (k : string) : option Operator :=
  find (fun op => String.eqb (operatorKey op) k) allOperators.

(** Update operators ([keyof UpdateOperators]). *)
Inductive UpdateOperator : Type := set_ | increment | decrement | multiply | divide.

Definition parseUpdateOperator (k : string) : option UpdateOperator :=
  if String.eqb k "set" then Some set_
  else if String.eqb k "increment" then Some increment
  else if String.eqb k "decrement" then Some decrement
  else if String.eqb k "multiply" then Some multiply
  else if String.eqb k "divide" then Some divide
  else None.

(** [WhereCondition] / [Where]: a raw fragment, a fragment with (optional)
    parameters, [null], or an object.  An object is split the way
    [createLogicalWhere] reads it: the plain fields in enumeration order, and
    the [AND] / [OR] arrays when the key is present. *)
Inductive Where : Type :=
  | WNull
  | WString (sql : string)
  | WArray (sql : string) (params : option (list Value))
  | WObject (fields : list (string * Value))
            (AND : option (list Where)) (OR : option (list Where)).

(** [Having]. *)
Inductive Having : Type :=
  | HNull
  | HString (sql : string)
  | HArray (sql : string) (params : option (list Value))
  | HObject (fields : list (string * Value)).

(** [JoinConfig]; [type] is kept as the string the caller passed, since
    [createJoin] validates it at run time. *)
Record JoinConfig : Type := mkJoin {
  j_type : option string;
  j_on : option string;
  j_using : option (list string)
}.

Inductive JoinDef : Type :=
  | JoinOn (cond : string)
  | JoinCfg (cfg : JoinConfig).

Definition JoinDefinition : Type := list (string * JoinDef).

Inductive GroupBy : Type :=
  | GString (field : string)
  | GArray (fields : list string).

(** [OrderBy]: field to direction; a direction that is not a string is
    skipped by [createOrder], hence a [Value]. *)
Definition OrderBy : Type := list (string * Value).

(** *** [BaseDialect] *)

Definition formatDate (iso : string) : Value := VStr iso.
Definition formatBoolean (b : bool) : Value := VNum (if b then 1 else 0).

Definition toSQLHolder (value : Value) : Value :=
  match value with
  | VDate iso => formatDate iso
  | VBool b => formatBoolean b
  | _ => value
  end.

Record UpsertParams : Type := mkUpsertParams {
  u_table : string;
  u_data : list (string * Value);
  u_uniqueKeys : list string;
  u_updateData : option (list (string * Value))
}.

(** The abstract members of [BaseDialect], and [buildLimitOffset], which a
    dialect may override.  [buildUpsert] is not declared by the base class:
    a dialect either has it or not (["buildUpsert" in dialect]). *)
Class BaseDialect : Type := {
  dialectType : string;
  escapeIdentifier : string -> string;
  getPlaceholder : nat -> string;
  createWhere : option Where -> Res ValueHolders;
  createFilter : string -> Value -> Res ValueHolders;
  createDataFilter : string -> Value -> Res ValueHolders;
  createOrder : option OrderBy -> string;
  createJoin : option JoinDefinition -> Res string;
  createGroupBy : option GroupBy -> string;
  createHaving : option Having -> Res ValueHolders;
  buildLimitOffset : Z -> Z -> string;
  buildUpsert : option (UpsertParams -> Res ValueHolders)
}.

Record SelectParams : Type := mkSelectParams {
  s_table : string;
  s_fields : option string;
  s_where : option Where;
  s_order : option OrderBy;
  s_limit : option Z;
  s_offset : option Z;
  s_join : option JoinDefinition;
  s_groupBy : option GroupBy;
  s_having : option Having
}.

Record InsertParams : Type := mkInsertParams {
  i_table : string;
  i_data : list (list (string * Value))
}.

Record UpdateParams : Type := mkUpdateParams {
  up_table : string;
  up_data : list (string * Value);
  up_where : option Where;
  up_order : option OrderBy;
  up_limit : option Z
}.

Record DeleteParams : Type := mkDeleteParams {
  d_table : string;
  d_where : option Where;
  d_order : option OrderBy;
  d_limit : option Z
}.

Record CountParams : Type := mkCountParams {
  c_table : string;
  c_where : option Where;
  c_join : option JoinDefinition;
  c_groupBy : option GroupBy;
  c_having : option Having
}.

Record ExistsParams : Type := mkExistsParams {
  e_table : string;
  e_where : option Where
}.

(** [limit && limit > 0] *)
Definition positiveLimit (limit : option Z) : option Z :=
  match limit with
  | Some l => if (0 <? l)%Z then Some l else None
  | None => None
  end.

(** [row[field]]: the value of a property, [undefined] when absent. *)
Fixpoint getProp (row : list (string * Value)) (field : string) : Value :=
  match row with
  | [] => VUndefined
  | (k, v) :: rest => if String.eqb k field then v else getProp rest field
  end.

(** The loop shared by the clause builders: compile each member, and keep
    the fragment and its parameters when the fragment is not empty. *)
Section Collect.
Context {A : Type}.
Variable compile : A -> Res ValueHolders.
Variable wrap : A -> string -> string.

Fixpoint collect (l : list A) : Res (list string * list Value) :=
  match l with
  | [] => Ok ([], [])
  | x :: xs =>
      r ← compile x;
      rest ← collect xs;
      Ok (if truthy (prepare r)
          then (wrap x (prepare r) :: fst rest, holders r ++ snd rest)
          else rest)
  end.
End Collect.

Section Builders.
Context `{D : BaseDialect}.

(** Appends [" KW " ++ text] when [text] is not empty. *)
Definition clause (kw text : string) : string :=
  if truthy text then kw +:+ text else "".

Definition buildSelect (params : SelectParams) : Res ValueHolders :=
  let fields := default "*" (s_fields params) in
  let offset := default 0%Z (s_offset params) in
  let sql := "SELECT " +:+ fields +:+ " FROM " +:+ escapeIdentifier (s_table params) in
  joinStr ← createJoin (s_join params);
  let sql := sql +:+ (if truthy joinStr then joinStr else "") in
  whereResult ← createWhere (s_where params);
  let sql := sql +:+ clause " WHERE " (prepare whereResult) in
  let holders1 := if truthy (prepare whereResult) then holders whereResult else [] in
  let groupByStr := createGroupBy (s_groupBy params) in
  let sql := sql +:+ clause " GROUP BY " groupByStr in
  havingResult ← createHaving (s_having params);
  let sql := sql +:+ clause " HAVING " (prepare havingResult) in
  let holders2 := if truthy (prepare havingResult) then holders havingResult else [] in
  let orderStr := createOrder (s_order params) in
  let sql := sql +:+ clause " ORDER BY " orderStr in
  let sql := sql +:+ match positiveLimit (s_limit params) with
                     | Some limit => buildLimitOffset limit offset
                     | None => ""
                     end in
  Ok {| prepare := sql; holders := holders1 ++ holders2 |}.

(** One ["(?, ?, ...)"] group of [buildInsert]; [n] is [holders.length]
    when the row starts. *)
Fixpoint rowPlaceholders (n : nat) (fields : list string) : list string :=
  match fields with
  | [] => []
  | _ :: rest => getPlaceholder n :: rowPlaceholders (S n) rest
  end.

Fixpoint insertRows (n : nat) (fields : list string)
    (data : list (list (string * Value))) : list string * list Value :=
  match data with
  | [] => ([], [])
  | row :: rest =>
      let hs := map (fun f => toSQLHolder (getProp row f)) fields in
      let set := "(" +:+ join ", " (rowPlaceholders n fields) +:+ ")" in
      let r := insertRows (n + length fields) fields rest in
      (set :: fst r, hs ++ snd r)
  end.

Definition buildInsert (params : InsertParams) : Res ValueHolders :=
  match i_data params with
  | [] => Throw (Error "Insert data cannot be empty")
  | first :: _ =>
      let fields := map fst first in
      let escapedFields := map escapeIdentifier fields in
      let sql := "INSERT INTO " +:+ escapeIdentifier (i_table params) +:+ " ("
                 +:+ join ", " escapedFields +:+ ") VALUES" in
      let r := insertRows 0 fields (i_data params) in
      Ok {| prepare := sql +:+ " " +:+ join ", " (fst r); holders := snd r |}
  end.

Definition limitClause (limit : option Z) : string :=
  match positiveLimit limit with
  | Some l => " LIMIT " +:+ Z_to_string l
  | None => ""
  end.

(** An assignment resolves when the dialect compiles it to a non-empty
    fragment (or refuses it). *)
Definition resolvable (kv : string * Value) : bool :=
  match createDataFilter (fst kv) (snd kv) with
  | Ok vh => truthy (prepare vh)
  | Throw _ => true
  end.

Definition buildUpdate (params : UpdateParams) : Res ValueHolders :=
  r ← collect (fun kv => createDataFilter (fst kv) (snd kv)) (fun _ s => s)
        (up_data params);
  match fst r with
  | [] => Throw (Error "No fields to update")
  | parts =>
      let sql := "UPDATE " +:+ escapeIdentifier (up_table params) +:+ " SET "
                 +:+ join ", " parts in
      whereResult ← createWhere (up_where params);
      let sql := sql +:+ clause " WHERE " (prepare whereResult) in
      let holders1 := if truthy (prepare whereResult) then holders whereResult else [] in
      let sql := sql +:+ clause " ORDER BY " (createOrder (up_order params)) in
      let sql := sql +:+ limitClause (up_limit params) in
      Ok {| prepare := sql; holders := snd r ++ holders1 |}
  end.

Definition buildDelete (params : DeleteParams) : Res ValueHolders :=
  let sql := "DELETE FROM " +:+ escapeIdentifier (d_table params) in
  whereResult ← createWhere (d_where params);
  let sql := sql +:+ clause " WHERE " (prepare whereResult) in
  let holders1 := if truthy (prepare whereResult) then holders whereResult else [] in
  let sql := sql +:+ clause " ORDER BY " (createOrder (d_order params)) in
  let sql := sql +:+ limitClause (d_limit params) in
  Ok {| prepare := sql; holders := holders1 |}.

Definition buildCount (params : CountParams) : Res ValueHolders :=
  let sql := "SELECT COUNT(*) as " +:+ escapeIdentifier "total_num" +:+ " FROM "
             +:+ escapeIdentifier (c_table params) in
  joinStr ← createJoin (c_join params);
  let sql := sql +:+ (if truthy joinStr then joinStr else "") in
  whereResult ← createWhere (c_where params);
  let sql := sql +:+ clause " WHERE " (prepare whereResult) in
  let holders1 := if truthy (prepare whereResult) then holders whereResult else [] in
  let sql := sql +:+ clause " GROUP BY " (createGroupBy (c_groupBy params)) in
  havingResult ← createHaving (c_having params);
  let sql := sql +:+ clause " HAVING " (prepare havingResult) in
  let holders2 := if truthy (prepare havingResult) then holders havingResult else [] in
  Ok {| prepare := sql; holders := holders1 ++ holders2 |}.

Definition buildExists (params : ExistsParams) : Res ValueHolders :=
  let sql := "SELECT 1 FROM " +:+ escapeIdentifier (e_table params) in
  whereResult ← createWhere (e_where params);
  let sql := sql +:+ clause " WHERE " (prepare whereResult) in
  let holders1 := if truthy (prepare whereResult) then holders whereResult else [] in
  Ok {| prepare := sql +:+ " LIMIT 1"; holders := holders1 |}.

End Builders.



End Dialect.

(** *** [MySQLDialect] *)

Module MySQLDialect.
Import Dialect.

Definition escapeIdentifier (identifier : string) : string :=
  "`" +:+ identifier +:+ "`".

Definition getPlaceholder (_ : nat) : string := "?".

(** [createOperatorCondition]; [operator] is the property name found in the
    operator object. *)
Definition createOperatorCondition (key operator : string) (value : Value)
    : Res ValueHolders :=
  let field := escapeIdentifier key in
  match parseOperator operator with
  | Some ((eq_ | ne | gt | gte | lt | lte) as op) =>
      Ok {| prepare := field +:+ " " +:+ OperatorMap op +:+ " ?";
            holders := [toSQLHolder value] |}
  | Some ((in_ | notIn) as op) =>
      match value with
      | VArr [] => Throw (Error (operator +:+ " operator requires a non-empty array"))
      | VArr items =>
          let placeholders := join ", " (map (fun _ => "?") items) in
          Ok {| prepare := field +:+ " " +:+ OperatorMap op +:+ " (" +:+ placeholders +:+ ")";
                holders := map toSQLHolder items |}
      | _ => Throw (Error (operator +:+ " operator requires an array value"))
      end
  | Some ((between | notBetween) as op) =>
      match value with
      | VArr [min; max] =>
          Ok {| prepare := field +:+ " " +:+ OperatorMap op +:+ " ? AND ?";
                holders := [toSQLHolder min; toSQLHolder max] |}
      | VArr _ => Throw (Error (operator +:+ " operator requires exactly 2 values"))
      | _ => Throw (Error (operator +:+ " operator requires an array value"))
      end
  | Some ((like | notLike | rlike | notRlike) as op) =>
      Ok {| prepare := field +:+ " " +:+ OperatorMap op +:+ " ?"; holders := [value] |}
  | Some startsWith =>
      Ok {| prepare := field +:+ " LIKE ?"; holders := [VStr (toString value +:+ "%")] |}
  | Some endsWith =>
      Ok {| prepare := field +:+ " LIKE ?"; holders := [VStr ("%" +:+ toString value)] |}
  | Some contains =>
      Ok {| prepare := field +:+ " LIKE ?";
            holders := [VStr ("%" +:+ toString value +:+ "%")] |}
  | Some isNull =>
      match value with
      | VBool true => Ok {| prepare := field +:+ " IS NULL"; holders := [] |}
      | VBool false => Ok {| prepare := field +:+ " IS NOT NULL"; holders := [] |}
      | _ => Ok emptyVH
      end
  | Some isNotNull =>
      match value with
      | VBool true => Ok {| prepare := field +:+ " IS NOT NULL"; holders := [] |}
      | VBool false => Ok {| prepare := field +:+ " IS NULL"; holders := [] |}
      | _ => Ok emptyVH
      end
  | None => Ok emptyVH
  end.

Definition createFilter (key : string) (value : Value) : Res ValueHolders :=
  match value with
  | VNull => Ok {| prepare := escapeIdentifier key +:+ " IS NULL"; holders := [] |}
  | VUndefined => Ok emptyVH
  | VObj _ | VArr _ =>
      r ← collect (fun kv => createOperatorCondition key (fst kv) (snd kv))
            (fun _ s => s) (ownProps value);
      let conditions := fst r in
      if decide (length conditions = 0) then Ok emptyVH
      else
        Ok {| prepare := if decide (1 < length conditions)
                         then "(" +:+ join " AND " conditions +:+ ")"
                         else nth 0 conditions "";
              holders := snd r |}
  | _ =>
      Ok {| prepare := escapeIdentifier key +:+ " = ?";
            holders := [toSQLHolder value] |}
  end.

Definition createDataFilter (key : string) (value : Value) : Res ValueHolders :=
  let field := escapeIdentifier key in
  match value with
  | VNull => Ok {| prepare := field +:+ " = NULL"; holders := [] |}
  | VUndefined => Ok emptyVH
  | VObj _ | VArr _ =>
      match ownProps value with
      | [] => Ok emptyVH
      | (operator, opValue) :: _ =>
          match parseUpdateOperator operator with
          | Some set_ =>
              Ok {| prepare := field +:+ " = ?"; holders := [toSQLHolder opValue] |}
          | Some increment =>
              Ok {| prepare := field +:+ " = " +:+ field +:+ " + ?"; holders := [opValue] |}
          | Some decrement =>
              Ok {| prepare := field +:+ " = " +:+ field +:+ " - ?"; holders := [opValue] |}
          | Some multiply =>
              Ok {| prepare := field +:+ " = " +:+ field +:+ " * ?"; holders := [opValue] |}
          | Some divide =>
              Ok {| prepare := field +:+ " = " +:+ field +:+ " / ?"; holders := [opValue] |}
          | None => Ok emptyVH
          end
      end
  | _ => Ok {| prepare := field +:+ " = ?"; holders := [toSQLHolder value] |}
  end.

Definition createFieldConditions (fields : list (string * Value)) : Res ValueHolders :=
  r ← collect (fun kv => createFilter (fst kv) (snd kv)) (fun _ s => s) fields;
  Ok {| prepare := join " AND " (fst r); holders := snd r |}.

Definition bracket (s : string) : string := "( " +:+ s +:+ " )".

(** [Object.keys(condition).length] of an object-form condition. *)
Definition keyCount (fields : list (string * Value))
    (AND OR : option (list Where)) : nat :=
  length fields + (if AND is Some _ then 1 else 0) + (if OR is Some _ then 1 else 0).

(** The members of the mutual recursion below [createWhere], over the
    recursive call [rec] on one member of an [AND] / [OR] array. *)
Section Logical.
Variable rec : Where -> Res ValueHolders.

Definition andNeedsBracket (condition : Where) : bool :=
  match condition with
  | WObject _ _ (Some _) => true
  | _ => false
  end.

Definition orNeedsBracket (condition : Where) : bool :=
  match condition with
  | WObject fields AND OR =>
      bool_decide (1 < keyCount fields AND OR) || bool_decide (is_Some AND)
  | _ => false
  end.

Definition createAndConditions (conditions : list Where) : Res ValueHolders :=
  r ← collect rec (fun c s => if andNeedsBracket c then bracket s else s) conditions;
  Ok {| prepare := join " AND " (fst r); holders := snd r |}.

Definition createOrConditions (conditions : list Where) : Res ValueHolders :=
  r ← collect rec (fun c s => if orNeedsBracket c then bracket s else s) conditions;
  Ok {| prepare := join " OR " (fst r); holders := snd r |}.

Definition createLogicalWhere (fields : list (string * Value))
    (AND OR : option (list Where)) : Res ValueHolders :=
  f ← match fields with
      | [] => Ok emptyVH
      | _ => createFieldConditions fields
      end;
  let conditions := if truthy (prepare f) then [prepare f] else [] in
  let holders0 := if truthy (prepare f) then holders f else [] in
  a ← match AND with
      | Some ((_ :: _) as l) => createAndConditions l
      | _ => Ok emptyVH
      end;
  let conditions := conditions ++ (if truthy (prepare a) then [prepare a] else []) in
  let holders0 := holders0 ++ (if truthy (prepare a) then holders a else []) in
  o ← match OR with
      | Some ((_ :: _) as l) => createOrConditions l
      | _ => Ok emptyVH
      end;
  let orPart := match conditions with
                | [] => prepare o
                | _ => bracket (prepare o)
                end in
  let conditions := conditions ++ (if truthy (prepare o) then [orPart] else []) in
  let holders0 := holders0 ++ (if truthy (prepare o) then holders o else []) in
  Ok {| prepare := join " AND " conditions; holders := holders0 |}.
End Logical.

(** [createWhere] on a value that is not [undefined]. *)
Fixpoint createWhereOf (where_ : Where) : Res ValueHolders :=
  match where_ with
  | WNull => Ok emptyVH
  | WString sql => Ok {| prepare := sql; holders := [] |}
  | WArray sql params => Ok {| prepare := sql; holders := default [] params |}
  | WObject fields AND OR =>
      if decide (keyCount fields AND OR = 0) then Ok emptyVH
      else createLogicalWhere createWhereOf fields AND OR
  end.

Definition createWhere (where_ : option Where) : Res ValueHolders :=
  match where_ with
  | None => Ok emptyVH
  | Some w => createWhereOf w
  end.

(** The fragments an operator object yields, read off the specification:
    every operator is compiled on its own, and the ones that produce text
    are kept, in order. *)
Definition operatorFragments (key : string) (ops : list (string * Value))
    : Res (list ValueHolders) :=
  rs ← mapRes (fun kv => createOperatorCondition key (fst kv) (snd kv)) ops;
  Ok (List.filter (fun r => truthy (prepare r)) rs).

(** Operators that always produce a fragment when they compile: the known
    ones, [isNull] / [isNotNull] only with a boolean argument. *)
Definition yieldsFragment (kv : string * Value) : bool :=
  match parseOperator (fst kv), snd kv with
  | Some (isNull | isNotNull), VBool _ => true
  | Some (isNull | isNotNull), _ => false
  | Some _, _ => true
  | None, _ => false
  end.

Definition parenthesized (s : string) : Prop :=
  exists body, s = "(" +:+ body +:+ ")".

Definition createOrder (order : option OrderBy) : string :=
  match order with
  | None => ""
  | Some entries =>
      join ", "
        (flat_map (fun kv =>
           match snd kv with
           | VStr value =>
               let direction := toUpperCase value in
               if String.eqb direction "ASC" || String.eqb direction "DESC"
               then [escapeIdentifier (fst kv) +:+ " " +:+ direction]
               else []
           | _ => []
           end) entries)
  end.

Definition validTypes : list string := ["INNER"; "LEFT"; "RIGHT"; "FULL"; "CROSS"].

(** One iteration of the loop of [createJoin]. *)
Definition joinPart (tableName : string) (joinDef : JoinDef) : Res string :=
  match joinDef with
  | JoinOn cond =>
      Ok (" INNER JOIN " +:+ escapeIdentifier tableName +:+ " ON " +:+ cond)
  | JoinCfg cfg =>
      let type := default "INNER" (j_type cfg) in
      if negb (existsb (String.eqb type) validTypes) then
        Throw (Error ("Invalid JOIN type: " +:+ type +:+ ". Valid types are: "
                      +:+ join ", " validTypes))
      else
        let joinClause := " " +:+ type +:+ " JOIN " +:+ escapeIdentifier tableName in
        if String.eqb type "CROSS" then Ok joinClause
        else
          match j_using cfg with
          | Some [] =>
              Throw (Error ("JOIN " +:+ dquote +:+ "using" +:+ dquote
                            +:+ " must be a non-empty array for table "
                            +:+ dquote +:+ tableName +:+ dquote))
          | Some usingFields =>
              Ok (joinClause +:+ " USING ("
                  +:+ join ", " (map escapeIdentifier usingFields) +:+ ")")
          | None =>
              match j_on cfg with
              | Some on =>
                  if truthy on then Ok (joinClause +:+ " ON " +:+ on)
                  else Throw (Error ("JOIN on table " +:+ dquote +:+ tableName +:+ dquote
                         +:+ " requires either " +:+ dquote +:+ "on" +:+ dquote +:+ " or "
                         +:+ dquote +:+ "using" +:+ dquote +:+ " condition (or use type: "
                         +:+ dquote +:+ "CROSS" +:+ dquote +:+ ")"))
              | None =>
                  Throw (Error ("JOIN on table " +:+ dquote +:+ tableName +:+ dquote
                         +:+ " requires either " +:+ dquote +:+ "on" +:+ dquote +:+ " or "
                         +:+ dquote +:+ "using" +:+ dquote +:+ " condition (or use type: "
                         +:+ dquote +:+ "CROSS" +:+ dquote +:+ ")"))
              end
          end
  end.

Definition createJoin (join_ : option JoinDefinition) : Res string :=
  match join_ with
  | None | Some [] => Ok ""
  | Some defs =>
      parts ← mapRes (fun kv => joinPart (fst kv) (snd kv)) defs;
      Ok (join "" parts)
  end.

(** A [table.field] name is escaped part by part. *)
Definition escapeDotted (field : string) : string :=
  if includes "." field
  then join "." (map escapeIdentifier (split "." field))
  else escapeIdentifier field.

Definition createGroupBy (groupBy : option GroupBy) : string :=
  match groupBy with
  | None => ""
  | Some (GString field) => if truthy field then escapeDotted field else ""
  | Some (GArray []) => ""
  | Some (GArray fields) => join ", " (map escapeDotted fields)
  end.

Definition createHaving (having : option Having) : Res ValueHolders :=
  match having with
  | None | Some HNull => Ok emptyVH
  | Some (HString sql) => Ok {| prepare := sql; holders := [] |}
  | Some (HArray sql params) => Ok {| prepare := sql; holders := default [] params |}
  | Some (HObject fields) =>
      r ← collect (fun kv => createFilter (fst kv) (snd kv)) (fun _ s => s) fields;
      Ok {| prepare := match fst r with
                       | [] => ""
                       | conditions => join " AND " conditions
                       end;
            holders := snd r |}
  end.

Definition buildLimitOffset (limit offset : Z) : string :=
  if (0 <? offset)%Z
  then " LIMIT " +:+ Z_to_string offset +:+ ", " +:+ Z_to_string limit
  else " LIMIT " +:+ Z_to_string limit.

(** [INSERT ... ON DUPLICATE KEY UPDATE]. *)
Definition buildUpsert (params : UpsertParams) : Res ValueHolders :=
  let data := u_data params in
  let fields := map (fun kv => escapeIdentifier (fst kv)) data in
  let holders1 := map (fun kv => toSQLHolder (snd kv)) data in
  let placeholders := join ", " (map (fun _ => "?") fields) in
  let sql := "INSERT INTO " +:+ escapeIdentifier (u_table params) +:+ " ("
             +:+ join ", " fields +:+ ") VALUES (" +:+ placeholders +:+ ")" in
  let updateFields := default data (u_updateData params) in
  let updated :=
    List.filter (fun kv => negb (existsb (String.eqb (fst kv)) (u_uniqueKeys params)))
                updateFields in
  let updateParts := map (fun kv => escapeIdentifier (fst kv) +:+ " = ?") updated in
  let holders2 := map (fun kv => toSQLHolder (snd kv)) updated in
  Ok {| prepare := sql +:+ match updateParts with
                           | [] => ""
                           | _ => " ON DUPLICATE KEY UPDATE " +:+ join ", " updateParts
                           end;
        holders := holders1 ++ holders2 |}.

#[global] Instance dialect : BaseDialect := {|
  Dialect.dialectType := "mysql";
  Dialect.escapeIdentifier := escapeIdentifier;
  Dialect.getPlaceholder := getPlaceholder;
  Dialect.createWhere := createWhere;
  Dialect.createFilter := createFilter;
  Dialect.createDataFilter := createDataFilter;
  Dialect.createOrder := createOrder;
  Dialect.createJoin := createJoin;
  Dialect.createGroupBy := createGroupBy;
  Dialect.createHaving := createHaving;
  Dialect.buildLimitOffset := buildLimitOffset;
  Dialect.buildUpsert := Some buildUpsert
|}.

(** The direction of an [ORDER BY] entry, upper-cased when it is a string. *)
Definition upperDirection (kv : string * Value) : string * Value :=
  (fst kv, match snd kv with VStr s => VStr (toUpperCase s) | v => v end).


End MySQLDialect.

(** ** Placeholders and well-formed descriptors *)

Module Balance.
Import Dialect.

Fixpoint countChar (c : ascii) (s : string) : nat :=
  match s with
  | EmptyString => 0
  | String x rest => (if Ascii.eqb x c then 1 else 0) + countChar c rest
  end.

(** The positional placeholders of a MySQL statement text: its question
    marks. *)
Definition placeholders (sql : string) : nat := countChar "?"%char sql.

(** A text without placeholder, such as an identifier ought to be. *)
Definition plain (s : string) : bool := Nat.eqb (placeholders s) 0.

(** A Compiled Statement whose parameters match its placeholders. *)
Definition balanced (vh : ValueHolders) : Prop :=
  placeholders (prepare vh) = length (holders vh).

(** Descriptors the compiler can keep balanced: identifiers and raw
    fragments are plain, and a fragment that comes with parameters has one
    placeholder per parameter. *)
Fixpoint balancedWhere (w : Where) : bool :=
  match w with
  | WNull => true
  | WString sql => plain sql
  | WArray sql params => Nat.eqb (placeholders sql) (length (default [] params))
  | WObject fields AND OR =>
      forallb (fun kv => plain (fst kv)) fields
      && match AND with Some l => forallb balancedWhere l | None => true end
      && match OR with Some l => forallb balancedWhere l | None => true end
  end.

Definition balancedHaving (h : Having) : bool :=
  match h with
  | HNull => true
  | HString sql => plain sql
  | HArray sql params => Nat.eqb (placeholders sql) (length (default [] params))
  | HObject fields => forallb (fun kv => plain (fst kv)) fields
  end.

Definition plainJoin (j : JoinDefinition) : bool :=
  forallb (fun kv =>
    plain (fst kv) &&
    match snd kv with
    | JoinOn cond => plain cond
    | JoinCfg cfg =>
        plain (default "" (j_on cfg)) && forallb plain (default [] (j_using cfg))
    end) j.

Definition plainGroupBy (g : GroupBy) : bool :=
  match g with
  | GString field => plain field
  | GArray fields => forallb plain fields
  end.

Definition plainKeys {A} (l : list (string * A)) : bool :=
  forallb (fun kv => plain (fst kv)) l.

Definition opt {A} (f : A -> bool) (o : option A) : bool :=
  match o with Some a => f a | None => true end.

Definition wfSelect (p : SelectParams) : bool :=
  plain (s_table p) && opt plain (s_fields p) && opt balancedWhere (s_where p)
  && opt plainKeys (s_order p) && opt plainJoin (s_join p)
  && opt plainGroupBy (s_groupBy p) && opt balancedHaving (s_having p).

Definition wfInsert (p : InsertParams) : bool :=
  plain (i_table p) && opt plainKeys (head (i_data p)).

Definition wfUpdate (p : UpdateParams) : bool :=
  plain (up_table p) && plainKeys (up_data p) && opt balancedWhere (up_where p)
  && opt plainKeys (up_order p).

Definition wfDelete (p : DeleteParams) : bool :=
  plain (d_table p) && opt balancedWhere (d_where p) && opt plainKeys (d_order p).

Definition wfCount (p : CountParams) : bool :=
  plain (c_table p) && opt balancedWhere (c_where p) && opt plainJoin (c_join p)
  && opt plainGroupBy (c_groupBy p) && opt balancedHaving (c_having p).

Definition wfExists (p : ExistsParams) : bool :=
  plain (e_table p) && opt balancedWhere (e_where p).

Definition wfUpsert (p : UpsertParams) : bool :=
  plain (u_table p) && plainKeys (u_data p) && opt plainKeys (u_updateData p).

(** A dialect whose members keep statements balanced on well-formed
    descriptors; the statement builders of [BaseDialect] then do too. *)
Class BalancedDialect (D : BaseDialect) : Prop := {
  escape_plain : forall s, placeholders (escapeIdentifier s) = placeholders s;
  placeholder_one : forall n, placeholders (getPlaceholder n) = 1;
  where_balanced : forall w vh,
    opt balancedWhere w = true -> createWhere w = Ok vh -> balanced vh;
  dataFilter_balanced : forall k v vh,
    plain k = true -> createDataFilter k v = Ok vh -> balanced vh;
  order_plain : forall o, opt plainKeys o = true -> placeholders (createOrder o) = 0;
  join_plain : forall j s,
    opt plainJoin j = true -> createJoin j = Ok s -> placeholders s = 0;
  groupBy_plain : forall g,
    opt plainGroupBy g = true -> placeholders (createGroupBy g) = 0;
  having_balanced : forall h vh,
    opt balancedHaving h = true -> createHaving h = Ok vh -> balanced vh;
  limit_plain : forall l o, placeholders (buildLimitOffset l o) = 0
}.

End Balance.

(** ** The repository facade ([Table.ts]) *)

Module Table.
Import Dialect.

(** [ResultHeader] of [IDatabaseDriver]. *)
Record ResultHeader : Type := mkHeader {
  h_affectedRows : Z;
  h_insertId : option Z
}.

Inductive OperationType : Type := op_insert | op_update | op_delete | op_upsert.
Inductive UpsertAction : Type := action_insert | action_update.

Record OperationResult : Type := mkOperationResult {
  type : OperationType;
  affectedRows : Z;
  insertId : option Z;
  action : option UpsertAction
}.

Record Table : Type := mkTable {
  tableName : string;
  _lastOperationResult : option OperationResult
}.

Definition getLastResult (t : Table) : option OperationResult :=
  _lastOperationResult t.

(** What a facade call leaves behind: the value returned or the exception
    thrown, the table object afterwards, and the statements handed to
    [driver.execute], in order. *)
Record Run (A : Type) : Type := mkRun {
  ret : Res A;
  self : Table;
  issued : list (string * list Value)
}.
Arguments mkRun {A} _ _ _.
Arguments ret {A} _.
Arguments self {A} _.
Arguments issued {A} _.

(** Code-unit order of strings, and [Array.prototype.sort] with the default
    comparator on a list of property names. *)
Definition str_le (a b : string) : Prop := String.leb a b = true.

#[global] Instance str_le_dec a b : Decision (str_le a b).
Proof. unfold str_le. apply _. Defined.

Definition sort (keys : list string) : list string := merge_sort str_le keys.

(** [keys.every((key, index) => key === firstKeys[index])] *)
Fixpoint every_eq (index : nat) (keys firstKeys : list string) : bool :=
  match keys with
  | [] => true
  | key :: rest =>
      match firstKeys !! index with
      | Some k => String.eqb key k && every_eq (S index) rest firstKeys
      | None => false
      end
  end.

Definition differentFields (keys firstKeys : list string) : bool :=
  negb (Nat.eqb (length keys) (length firstKeys)) || negb (every_eq 0 keys firstKeys).

Definition differentFieldsError (i : nat) (firstKeys keys : list string) : Exn :=
  Error ("Record at index " +:+ nat_to_string i +:+ " has different fields. "
         +:+ "Expected: [" +:+ join ", " firstKeys +:+ "], "
         +:+ "Got: [" +:+ join ", " keys +:+ "]").

(** The validation loop of [adds], from index [i] on: the exception of the
    first record whose sorted field list differs from [firstKeys]. *)
Fixpoint checkFields (firstKeys : list string) (i : nat)
    (records : list (list (string * Value))) : option Exn :=
  match records with
  | [] => None
  | record :: rest =>
      let keys := sort (map fst record) in
      if differentFields keys firstKeys
      then Some (differentFieldsError i firstKeys keys)
      else checkFields firstKeys (S i) rest
  end.

(** Two records declare the same set of fields. *)
Definition sameFieldSet (r1 r2 : list (string * Value)) : Prop :=
  forall k, k ∈ map fst r1 <-> k ∈ map fst r2.

Section Facade.
Context `{D : BaseDialect}.
(** [driver.execute]: the header the backend answers, or the exception it
    raises, for a statement. *)
Variable execute : string -> list Value -> Res ResultHeader.

Definition adds (t : Table) (data : list (list (string * Value))) : Run bool :=
  match data with
  | [] =>
      mkRun (Throw (Error "Parameter error, data must be an array with length >= 1"))
            t []
  | first :: rest =>
      let firstKeys := sort (map fst first) in
      match checkFields firstKeys 1 rest with
      | Some e => mkRun (Throw e) t []
      | None =>
          match buildInsert {| i_table := tableName t; i_data := data |} with
          | Throw e => mkRun (Throw e) t []
          | Ok vh =>
              let stmt := (prepare vh, holders vh) in
              match execute (prepare vh) (holders vh) with
              | Throw e => mkRun (Throw e) t [stmt]
              | Ok result =>
                  if decide (h_affectedRows result = Z.of_nat (length data)) then
                    mkRun (Ok true)
                      {| tableName := tableName t;
                         _lastOperationResult :=
                           Some {| type := op_insert;
                                   affectedRows := h_affectedRows result;
                                   insertId := h_insertId result;
                                   action := None |} |}
                      [stmt]
                  else
                    mkRun (Throw (Error
                      ("Expected to insert " +:+ nat_to_string (length data)
                       +:+ " rows but only " +:+ Z_to_string (h_affectedRows result)
                       +:+ " were affected")))
                      t [stmt]
              end
          end
      end
  end.

Definition add (t : Table) (data : list (string * Value)) : Run bool :=
  adds t [data].

(** The [catch] of [update]: the compiler's complaint about an empty
    assignment list becomes a successful no-op. *)
Definition updateCatch (t : Table) (error : Exn)
    (stmts : list (string * list Value)) : Run bool :=
  if String.eqb (message error) "No fields to update" then
    mkRun (Ok true)
      {| tableName := tableName t;
         _lastOperationResult :=
           Some {| type := op_update; affectedRows := 0;
                   insertId := None; action := None |} |}
      stmts
  else mkRun (Throw error) t stmts.

Definition update (t : Table) (data : list (string * Value))
    (where_ : option Where) (order : option OrderBy) (limit : option Z) : Run bool :=
  match buildUpdate {| up_table := tableName t; up_data := data;
                       up_where := where_; up_order := order; up_limit := limit |} with
  | Throw error => updateCatch t error []
  | Ok vh =>
      let stmt := (prepare vh, holders vh) in
      match execute (prepare vh) (holders vh) with
      | Throw error => updateCatch t error [stmt]
      | Ok result =>
          mkRun (Ok true)
            {| tableName := tableName t;
               _lastOperationResult :=
                 Some {| type := op_update; affectedRows := h_affectedRows result;
                         insertId := None; action := None |} |}
            [stmt]
      end
  end.

(** [key in data] *)
Definition hasKey (data : list (string * Value)) (key : string) : bool :=
  existsb (fun kv => String.eqb (fst kv) key) data.

Definition upsert (t : Table) (data : list (string * Value))
    (uniqueKeys : list string) (updateData : option (list (string * Value)))
    : Run bool :=
  match uniqueKeys with
  | [] => mkRun (Throw (Error "uniqueKeys is required for upsert operation")) t []
  | _ =>
      match find (fun key => negb (hasKey data key)) uniqueKeys with
      | Some key =>
          mkRun (Throw (Error ("uniqueKey " +:+ dquote +:+ key +:+ dquote
                               +:+ " not found in data"))) t []
      | None =>
          match buildUpsert with
          | None =>
              mkRun (Throw (Error ("Upsert operation is not supported for "
                                   +:+ dialectType +:+ " dialect"))) t []
          | Some build =>
              match build {| u_table := tableName t; u_data := data;
                             u_uniqueKeys := uniqueKeys;
                             u_updateData := updateData |} with
              | Throw e => mkRun (Throw e) t []
              | Ok vh =>
                  let stmt := (prepare vh, holders vh) in
                  match execute (prepare vh) (holders vh) with
                  | Throw e => mkRun (Throw e) t [stmt]
                  | Ok result =>
                      let action_ := if decide (h_affectedRows result = 1%Z)
                                     then action_insert else action_update in
                      mkRun (Ok true)
                        {| tableName := tableName t;
                           _lastOperationResult :=
                             Some {| type := op_upsert;
                                     affectedRows := h_affectedRows result;
                                     insertId := h_insertId result;
                                     action := Some action_ |} |}
                        [stmt]
                  end
              end
          end
      end
  end.
End Facade.

(** The getters [lastInsertId] and [lastAffectedRows]. *)
Definition lastInsertId (t : Table) : option Z :=
  _lastOperationResult t ≫= insertId.

Definition lastAffectedRows (t : Table) : option Z :=
  affectedRows <$> _lastOperationResult t.

(** A row of a result set: an object keyed by column name. *)
Definition Row : Type := list (string * Value).

(** The [params] object of [gets]. *)
Record GetsParams : Type := mkGetsParams {
  g_where : option Where;
  g_order : option OrderBy;
  g_offset : option Z;
  g_limit : option Z;
  g_field : option string;
  g_join : option JoinDefinition;
  g_groupBy : option GroupBy;
  g_having : option Having
}.

(** The [params] object of [get]. *)
Record GetParams : Type := mkGetParams {
  gp_where : option Where;
  gp_order : option OrderBy;
  gp_field : option string;
  gp_join : option JoinDefinition
}.

(** The [params] object of [remove]. *)
Record RemoveParams : Type := mkRemoveParams {
  r_where : option Where;
  r_order : option OrderBy;
  r_limit : option Z
}.

(** The [params] object of [count]. *)
Record CountArgs : Type := mkCountArgs {
  n_where : option Where;
  n_join : option JoinDefinition;
  n_groupBy : option GroupBy;
  n_having : option Having
}.

(** The reading half of the facade, and [remove].  In the [Run] of a
    reading call, [issued] lists the statements handed to [driver.query]. *)
Section Queries.
Context `{D : BaseDialect}.
(** [driver.query] and [driver.execute]. *)
Variable query : string -> list Value -> Res (list Row).
Variable execute : string -> list Value -> Res ResultHeader.

Definition gets (t : Table) (params : GetsParams) : Run (list Row) :=
  match buildSelect {| s_table := tableName t;
                       s_fields := Some (default "*" (g_field params));
                       s_where := g_where params;
                       s_order := g_order params;
                       s_limit := g_limit params;
                       s_offset := Some (default 0%Z (g_offset params));
                       s_join := g_join params;
                       s_groupBy := g_groupBy params;
                       s_having := g_having params |} with
  | Throw e => mkRun (Throw e) t []
  | Ok vh => mkRun (query (prepare vh) (holders vh)) t [(prepare vh, holders vh)]
  end.

(** [get]: the first row, or [null] ([None]). *)
Definition get (t : Table) (params : option GetParams) : Run (option Row) :=
  let r := gets t {| g_where := params ≫= gp_where;
                     g_order := params ≫= gp_order;
                     g_offset := Some 0%Z;
                     g_limit := Some 1%Z;
                     g_field := params ≫= gp_field;
                     g_join := params ≫= gp_join;
                     g_groupBy := None;
                     g_having := None |} in
  mkRun (result ← ret r; Ok (head result)) (self r) (issued r).

Definition remove (t : Table) (params : RemoveParams) : Run bool :=
  match buildDelete {| d_table := tableName t; d_where := r_where params;
                       d_order := r_order params; d_limit := r_limit params |} with
  | Throw e => mkRun (Throw e) t []
  | Ok vh =>
      let stmt := (prepare vh, holders vh) in
      match execute (prepare vh) (holders vh) with
      | Throw e => mkRun (Throw e) t [stmt]
      | Ok result =>
          mkRun (Ok true)
            {| tableName := tableName t;
               _lastOperationResult :=
                 Some {| type := op_delete; affectedRows := h_affectedRows result;
                         insertId := None; action := None |} |}
            [stmt]
      end
  end.

(** [count]: the [total_num] column of the first row, [0] without rows. *)
Definition count (t : Table) (params : option CountArgs) : Run Value :=
  match buildCount {| c_table := tableName t; c_where := params ≫= n_where;
                      c_join := params ≫= n_join; c_groupBy := params ≫= n_groupBy;
                      c_having := params ≫= n_having |} with
  | Throw e => mkRun (Throw e) t []
  | Ok vh =>
      mkRun (result ← query (prepare vh) (holders vh);
             Ok match result with
                | [] => VNum 0
                | row :: _ => getProp row "total_num"
                end)
            t [(prepare vh, holders vh)]
  end.

Definition exists_ (t : Table) (where_ : option Where) : Run bool :=
  match buildExists {| e_table := tableName t; e_where := where_ |} with
  | Throw e => mkRun (Throw e) t []
  | Ok vh =>
      mkRun (result ← query (prepare vh) (holders vh);
             Ok (bool_decide (0 < length result)))
            t [(prepare vh, holders vh)]
  end.
End Queries.


End Table.

(** ** The connection driver ([MySQLDriver.ts]) *)

Module Driver.

(** The driver object.  [pool] numbers the pool handle in use (each
    [createPool] yields the next one), [connection] tells whether a
    transaction has pinned a connection, [rebuildLock] whether a rebuild
    started by another caller is still awaited. *)
Record MySQLDriver : Type := mkDriver {
  pool : nat;
  connection : bool;
  isPoolDead : bool;
  rebuildLock : bool
}.

(** [new MySQLDriver(config)] *)
Definition create : MySQLDriver :=
  {| pool := 0; connection := false; isPoolDead := false; rebuildLock := false |}.

Definition connectionErrorCodes : list string :=
  ["PROTOCOL_CONNECTION_LOST"; "ECONNREFUSED"; "ECONNRESET"; "ETIMEDOUT";
   "EHOSTUNREACH"; "ENETUNREACH"; "EPIPE"].

Definition isConnectionError (error : Exn) : bool :=
  match code error with
  | Some c => existsb (String.eqb c) connectionErrorCodes
  | None => false
  end
  || includes "Connection lost" (message error)
  || includes "Connection closed" (message error).

(** What a call does besides returning: operation attempts, pool rebuilds
    and the delays slept, in order. *)
Inductive Event : Type :=
  | Attempt (n : nat)
  | Rebuild
  | Sleep (ms : Z).

(** [recreatePool]: with a rebuild already in flight the caller only awaits
    it; otherwise the pool is ended and replaced, the dead mark cleared, and
    the lock released once the rebuild has settled.  [createPool] is given
    the configuration the constructor already accepted. *)
Definition recreatePool (d : MySQLDriver) : MySQLDriver * list Event :=
  if rebuildLock d then (d, [])
  else ({| pool := S (pool d); connection := connection d;
           isPoolDead := false; rebuildLock := false |}, [Rebuild]).

Definition markDead (dead : bool) (d : MySQLDriver) : MySQLDriver :=
  {| pool := pool d; connection := connection d;
     isPoolDead := dead; rebuildLock := rebuildLock d |}.

Section Retry.
Context {T : Type}.
(** [operation ()]: what its [n]-th invocation within the call settles to. *)
Variable operation : nat -> Res T.

(** The [for] loop of [retryOnConnectionError], entered at [attempt] with
    [remaining = 4 - attempt] iterations left.  The statement after the
    loop, [throw lastError], is the [0] case. *)
Fixpoint retryLoop (remaining attempt consecutiveErrors : nat) (lastError : Exn)
    (d : MySQLDriver) : Res T * MySQLDriver * list Event :=
  match remaining with
  | 0 => (Throw lastError, d, [])
  | S remaining' =>
      let '(d, ev1) := if isPoolDead d && (1 <? attempt)
                       then recreatePool d else (d, []) in
      match operation attempt with
      | Ok result => (Ok result, markDead false d, ev1 ++ [Attempt attempt])
      | Throw error =>
          if negb (isConnectionError error)
          then (Throw error, d, ev1 ++ [Attempt attempt])
          else
            let consecutiveErrors := S consecutiveErrors in
            let d := if 2 <=? consecutiveErrors then markDead true d else d in
            if attempt =? 3
            then (Throw error, d, ev1 ++ [Attempt attempt])
            else
              let delay := if attempt =? 1 then 100%Z else 1000%Z in
              let '(r, d', ev2) :=
                retryLoop remaining' (S attempt) consecutiveErrors error d in
              (r, d', ev1 ++ [Attempt attempt; Sleep delay] ++ ev2)
      end
  end.

Definition retryOnConnectionError (d : MySQLDriver)
    : Res T * MySQLDriver * list Event :=
  if connection d then (operation 1, d, [Attempt 1])
  else retryLoop 3 1 0 (Error "") d.
End Retry.

Definition isAttempt (e : Event) : bool :=
  match e with Attempt _ => true | _ => false end.
Definition isRebuild (e : Event) : bool :=
  match e with Rebuild => true | _ => false end.

Definition attempts (evs : list Event) : nat := length (filter isAttempt evs).
Definition rebuilds (evs : list Event) : nat := length (filter isRebuild evs).

(** [execute]: the driver's reading of the [ResultSetHeader]; an
    [insertId] that is not positive is reported as [undefined]. *)
Definition resultHeader (header : Z * Z) : Table.ResultHeader :=
  {| Table.h_affectedRows := fst header;
     Table.h_insertId := if (0 <? snd header)%Z then Some (snd header) else None |}.

(** [execute sql params]; [executor n] is what the [n]-th
    [executor.execute(sql, params)] settles to: the [affectedRows] and
    [insertId] of the header, or an exception. *)
Definition execute (executor : nat -> Res (Z * Z)) (d : MySQLDriver)
    : Res Table.ResultHeader * MySQLDriver * list Event :=
  retryOnConnectionError (fun n => header ← executor n; Ok (resultHeader header)) d.

(** [ping]: the probe [SELECT 1] under the retry wrapper, with every
    exception turned into [false]. *)
Definition ping (probe : nat -> Res unit) (d : MySQLDriver)
    : bool * MySQLDriver * list Event :=
  let '(r, d', evs) := retryOnConnectionError probe d in
  (match r with Ok _ => true | Throw _ => false end, d', evs).

(** *** Transactions *)

(** What the pool and the pinned connection answer during one transaction. *)
Record Connection : Type := mkConnection {
  onGetConnection : Res unit;
  onBeginTransaction : Res unit;
  onCommit : Res unit;
  onRollback : Res unit
}.

(** The calls a transaction makes on the pool and on its connection, and
    the point where the callback runs. *)
Inductive TxEvent : Type :=
  | GetConnection
  | BeginTransaction
  | Callback
  | Commit
  | Rollback
  | Release.

(** [this.connection = ...] *)
Definition pin (c : bool) (d : MySQLDriver) : MySQLDriver :=
  {| pool := pool d; connection := c;
     isPoolDead := isPoolDead d; rebuildLock := rebuildLock d |}.

Definition begin (conn : Connection) (d : MySQLDriver)
    : Res unit * MySQLDriver * list TxEvent :=
  if connection d
  then (Throw (Error "事务已经开始，不能重复开启"), d, [])
  else
    match onGetConnection conn with
    | Throw e => (Throw e, d, [GetConnection])
    | Ok _ => (onBeginTransaction conn, pin true d, [GetConnection; BeginTransaction])
    end.

Definition commit (conn : Connection) (d : MySQLDriver)
    : Res unit * MySQLDriver * list TxEvent :=
  if negb (connection d)
  then (Throw (Error "没有活动的事务可以提交"), d, [])
  else
    match onCommit conn with
    | Throw e => (Throw e, d, [Commit])
    | Ok _ => (Ok tt, pin false d, [Commit; Release])
    end.

Definition rollback (conn : Connection) (d : MySQLDriver)
    : Res unit * MySQLDriver * list TxEvent :=
  if negb (connection d)
  then (Throw (Error "没有活动的事务可以回滚"), d, [])
  else
    match onRollback conn with
    | Throw e => (Throw e, d, [Rollback])
    | Ok _ => (Ok tt, pin false d, [Rollback; Release])
    end.

Section Transaction.
Context {T : Type}.
(** The callback: what it settles to, and the driver as it leaves it. *)
Variable callback : MySQLDriver -> Res T * MySQLDriver.

(** The [try] block of [transaction]. *)
Definition transactionBody (conn : Connection) (d : MySQLDriver)
    : Res T * MySQLDriver * list TxEvent :=
  let '(r, d1) := callback d in
  match r with
  | Throw e => (Throw e, d1, [Callback])
  | Ok result =>
      let '(c, d2, evs) := commit conn d1 in
      ((_ ← c; Ok result), d2, Callback :: evs)
  end.

(** [transaction] (the driver's, and [Database.transaction], which runs
    the same steps through the driver). *)
Definition transaction (conn : Connection) (d : MySQLDriver)
    : Res T * MySQLDriver * list TxEvent :=
  let '(b, d1, evs1) := begin conn d in
  match b with
  | Throw e => (Throw e, d1, evs1)
  | Ok _ =>
      let '(r, d2, evs2) := transactionBody conn d1 in
      match r with
      | Ok result => (Ok result, d2, evs1 ++ evs2)
      | Throw error =>
          let '(rb, d3, evs3) := rollback conn d2 in
          ((_ ← rb; Throw error), d3, evs1 ++ evs2 ++ evs3)
      end
  end.
End Transaction.

(** The delays slept, in order, and their sum. *)
Definition sleeps (evs : list Event) : list Z :=
  flat_map (fun e => match e with Sleep ms => [ms] | _ => [] end) evs.

Definition slept (evs : list Event) : Z := fold_right Z.add 0%Z (sleeps evs).

(** The [k]-th invocation of [operation] fails with a retryable
    connection error. *)
Definition retryable {T : Type} (operation : nat -> Res T) (k : nat) : Prop :=
  exists e, operation k = Throw e /\ isConnectionError e = true.


End Driver.

(** ** The lease lock ([MutexLock.ts]) *)

(** The shared key/value cache as the lock sees it: string keys holding a
    value with a time-to-live, and the three commands the lock sends. *)
Module Redis.

Record Entry : Type := mkEntry { value : string; pttl : Z }.

Inductive Command : Type :=
  | SetNxPx (key value : string) (ttl : Z)
  | EvalRelease (key value : string)
  | EvalExtend (key value : string) (ttl : Z).

(** The cache, and the commands clients have issued (whether or not they
    reached it), oldest first. *)
Record Cache : Type := mkCache {
  store : gmap string Entry;
  calls : list Command
}.

Definition sent (cmd : Command) (c : Cache) (s : gmap string Entry) : Cache :=
  {| store := s; calls := calls c ++ [cmd] |}.

(** [SET key value NX PX ttl]: replies [OK] (here [true]) only when the key
    was absent. *)
Definition set_nx_px (key value : string) (ttl : Z) (c : Cache) : bool * Cache :=
  match store c !! key with
  | Some _ => (false, sent (SetNxPx key value ttl) c (store c))
  | None =>
      (true, sent (SetNxPx key value ttl) c
               (<[key := {| value := value; pttl := ttl |}]> (store c)))
  end.

(** [releaseScript]: delete the key if it still holds [value]. *)
Definition releaseScript (key value_ : string) (c : Cache) : Z * Cache :=
  match store c !! key with
  | Some e =>
      if String.eqb (value e) value_
      then (1%Z, sent (EvalRelease key value_) c (delete key (store c)))
      else (0%Z, sent (EvalRelease key value_) c (store c))
  | None => (0%Z, sent (EvalRelease key value_) c (store c))
  end.

(** [extendScript]: reset the time-to-live if the key still holds [value]. *)
Definition extendScript (key value_ : string) (ttl : Z) (c : Cache) : Z * Cache :=
  match store c !! key with
  | Some e =>
      if String.eqb (value e) value_
      then (1%Z, sent (EvalExtend key value_ ttl) c
                   (<[key := {| value := value_; pttl := ttl |}]> (store c)))
      else (0%Z, sent (EvalExtend key value_ ttl) c (store c))
  | None => (0%Z, sent (EvalExtend key value_ ttl) c (store c))
  end.

(** A command that does not reach the cache ([up = false]) is recorded as
    sent and makes the client throw. *)
Definition failed (cmd : Command) (c : Cache) : Cache := sent cmd c (store c).

End Redis.

Module MutexLock.
Import Redis.

Record SafeRunOptions : Type := mkOptions {
  ttlMs : option Z;
  autoRenew : option bool;
  renewIntervalRatio : option Q;
  prefix : option string
}.

Definition noOptions : SafeRunOptions :=
  {| ttlMs := None; autoRenew := None; renewIntervalRatio := None; prefix := None |}.

(** [RenewRecord]; [timer] is the handle [setInterval] returned. *)
Record RenewRecord : Type := mkRecord {
  value : string;
  timer : option nat;
  consecutiveRenewFailures : nat
}.

(** A repeating timer of the runtime: its period and what the callback of
    [startAutoRenew] captured ([record] is a reference). *)
Record Interval : Type := mkInterval {
  period : Z;
  t_key : string;
  t_value : string;
  t_ttlMs : Z;
  t_record : nat
}.

(** A [MutexLock] object with the objects it owns: [renewMap] maps a lock
    key to a reference into [records], so that the map and the timer
    callback share one [RenewRecord]; [intervals] are the timers not yet
    cleared; [next] is the next fresh reference / handle. *)
Record MutexLock : Type := mkLock {
  ownerId : string;
  renewMap : gmap string nat;
  records : gmap nat RenewRecord;
  intervals : gmap nat Interval;
  next : nat
}.

Definition KEY_PREFIX : string := "NT.MutexLock.".
Definition DEFAULT_TTL_MS : Z := 30000.
Definition MIN_TTL_MS : Z := 5000.
Definition MAX_TTL_MS : Z := 600000.
Definition DEFAULT_AUTO_RENEW : bool := true.
Definition DEFAULT_RENEW_RATIO : Q := 1 # 2.
Definition MAX_RENEW_FAILURES : nat := 3.
Definition MIN_RENEW_INTERVAL_MS : Z := 1000.

(** [new MutexLock(redis)] with the owner id the constructor generated. *)
Definition create (ownerId_ : string) : MutexLock :=
  {| ownerId := ownerId_; renewMap := ∅; records := ∅; intervals := ∅; next := 0 |}.

(** [generateLockValue], from the clock reading and the random suffix. *)
Definition generateLockValue (m : MutexLock) (timestamp : Z) (random : string) : string :=
  ownerId m +:+ ":" +:+ Z_to_string timestamp +:+ ":" +:+ random.

Definition isSpace (c : ascii) : bool :=
  let n := nat_of_ascii c in
  (n =? 32) || ((9 <=? n) && (n <=? 13)).

Fixpoint trimStart (s : string) : string :=
  match s with
  | String c rest => if isSpace c then trimStart rest else s
  | EmptyString => EmptyString
  end.

(** Drops the trailing white space: [Some] of the trimmed string, [None]
    when the string is white space only. *)
Fixpoint trimEndAux (s : string) : option string :=
  match s with
  | EmptyString => None
  | String c rest =>
      match trimEndAux rest with
      | Some rest' => Some (String c rest')
      | None => if isSpace c then None else Some (String c EmptyString)
      end
  end.

(** [String.prototype.trim], on ASCII white space. *)
Definition trim (s : string) : string := default "" (trimEndAux (trimStart s)).

Definition buildLockKey (key : string) (prefix_ : option string) : string :=
  let trimmed := match prefix_ with Some p => trim p | None => "" end in
  let namespace := if truthy trimmed then trimmed else "mutex" in
  namespace +:+ ":" +:+ trim key.

Definition normalizeTtl (ttl : option Z) : Z :=
  Z.max MIN_TTL_MS (Z.min (default DEFAULT_TTL_MS ttl) MAX_TTL_MS).

(** [acquire]: one [SET NX PX]; [up] tells whether the command reaches the
    cache.  Returns the lease value when acquired. *)
Definition acquire (m : MutexLock) (key : string) (ttl : Z)
    (timestamp : Z) (random : string) (up : bool) (c : Cache)
    : option string * Cache :=
  let value_ := generateLockValue m timestamp random in
  if up then
    let '(ok, c') := set_nx_px key value_ ttl c in
    (if ok then Some value_ else None, c')
  else (None, failed (SetNxPx key value_ ttl) c).

Definition releaseLock (key value_ : string) (up : bool) (c : Cache) : bool * Cache :=
  if up then
    let '(res, c') := releaseScript key value_ c in (bool_decide (res = 1%Z), c')
  else (false, failed (EvalRelease key value_) c).

Definition extendLockTtl (key value_ : string) (ttl : Z) (up : bool) (c : Cache)
    : bool * Cache :=
  if up then
    let '(res, c') := extendScript key value_ ttl c in (bool_decide (res = 1%Z), c')
  else (false, failed (EvalExtend key value_ ttl) c).

(** [clearRenewTimer] *)
Definition clearRenewTimer (record : RenewRecord) (m : MutexLock) : MutexLock :=
  match timer record with
  | Some h =>
      {| ownerId := ownerId m; renewMap := renewMap m; records := records m;
         intervals := delete h (intervals m); next := next m |}
  | None => m
  end.

Definition renewMap_delete (key : string) (m : MutexLock) : MutexLock :=
  {| ownerId := ownerId m; renewMap := delete key (renewMap m);
     records := records m; intervals := intervals m; next := next m |}.

(** [renewMap.get(key)] *)
Definition renewMap_get (m : MutexLock) (key : string) : option RenewRecord :=
  ref ← renewMap m !! key; records m !! ref.

Definition renewInterval (ttlMs_ : Z) (ratio : Q) : Z :=
  Z.max MIN_RENEW_INTERVAL_MS (Qfloor (inject_Z ttlMs_ * ratio)).

Definition startAutoRenew (key value_ : string) (ttlMs_ : Z) (ratio : Q)
    (m : MutexLock) : MutexLock :=
  let existingRecord := renewMap_get m key in
  if bool_decide (value <$> existingRecord = Some value_) then m
  else
    let m := match existingRecord with
             | Some r => renewMap_delete key (clearRenewTimer r m)
             | None => m
             end in
    let interval := renewInterval ttlMs_ ratio in
    let ref := next m in
    let handle := S (next m) in
    {| ownerId := ownerId m;
       renewMap := <[key := ref]> (renewMap m);
       records := <[ref := {| value := value_; timer := Some handle;
                              consecutiveRenewFailures := 0 |}]> (records m);
       intervals := <[handle := {| period := interval; t_key := key;
                                   t_value := value_; t_ttlMs := ttlMs_;
                                   t_record := ref |}]> (intervals m);
       next := S (S (next m)) |}.

Definition stopAutoRenew (key value_ : string) (m : MutexLock) : MutexLock :=
  match renewMap_get m key with
  | Some record =>
      if String.eqb (value record) value_
      then renewMap_delete key (clearRenewTimer record m)
      else m
  | None => m
  end.


Definition setFailures (ref n : nat) (m : MutexLock) : MutexLock :=
  {| ownerId := ownerId m; renewMap := renewMap m;
     records := alter (fun r => {| value := value r; timer := timer r;
                                   consecutiveRenewFailures := n |}) ref (records m);
     intervals := intervals m; next := next m |}.

(** The body of the timer callback after [extendLockTtl] has settled with
    [success], for the timer [t]. *)
Definition onRenewed (t : Interval) (success : bool) (m : MutexLock) : MutexLock :=
  if success then setFailures (t_record t) 0 m
  else
    let failures :=
      S (default 0 (consecutiveRenewFailures <$> records m !! t_record t)) in
    let m := setFailures (t_record t) failures m in
    if bool_decide (MAX_RENEW_FAILURES <= failures)
    then stopAutoRenew (t_key t) (t_value t) m
    else m.





(** The timer with handle [h] fires: nothing happens when it was cleared. *)
Definition timerFires (h : nat) (up : bool) (m : MutexLock) (c : Cache)
    : MutexLock * Cache :=
  match intervals m !! h with
  | None => (m, c)
  | Some t =>
      let '(success, c') := extendLockTtl (t_key t) (t_value t) (t_ttlMs t) up c in
      (onRenewed t success m, c')
  end.

Definition releaseAndStopRenew (key value_ : string) (up : bool)
    (m : MutexLock) (c : Cache) : MutexLock * Cache :=
  let m := stopAutoRenew key value_ m in
  let '(_, c') := releaseLock key value_ up c in
  (m, c').

(** The timer [h] with closure [t] is the one recorded under its key. *)
Definition registered (m : MutexLock) (h : nat) (t : Interval) : Prop :=
  renewMap m !! t_key t = Some (t_record t) /\
  exists r, records m !! t_record t = Some r /\
            value r = t_value t /\ timer r = Some h.

(** Every live timer is registered, and references and handles in use are
    below [next]. *)
Record Inv (m : MutexLock) : Prop := mkInv {
  inv_registered : forall h t, intervals m !! h = Some t -> registered m h t;
  inv_handles : forall h t, intervals m !! h = Some t -> h < next m;
  inv_refs : forall k ref, renewMap m !! k = Some ref -> ref < next m
}.



(** What may happen to the lock object and the cache while a task is in
    flight: a renewal timer fires, a key expires, another client of the
    cache issues a command, or another [safeRun] call on the same object
    starts or stops a renewal. *)
Inductive EnvEvent : Type :=
  | EvTimer (h : nat) (up : bool)
  | EvExpire (key : string)
  | EvSetNx (key value_ : string) (ttl : Z)
  | EvRelease (key value_ : string)
  | EvExtend (key value_ : string) (ttl : Z)
  | EvStartRenew (key value_ : string) (ttl : Z) (ratio : Q)
  | EvStopRenew (key value_ : string).

Definition envStep (e : EnvEvent) (w : MutexLock * Cache) : MutexLock * Cache :=
  let '(m, c) := w in
  match e with
  | EvTimer h up => timerFires h up m c
  | EvExpire key => (m, {| store := delete key (store c); calls := calls c |})
  | EvSetNx key v ttl => (m, snd (set_nx_px key v ttl c))
  | EvRelease key v => (m, snd (releaseScript key v c))
  | EvExtend key v ttl => (m, snd (extendScript key v ttl c))
  | EvStartRenew key v ttl ratio => (startAutoRenew key v ttl ratio m, c)
  | EvStopRenew key v => (stopAutoRenew key v m, c)
  end.

Definition envRun (es : list EnvEvent) (w : MutexLock * Cache) : MutexLock * Cache :=
  fold_left (fun w e => envStep e w) es w.

Section SafeRun.
Context {T : Type}.

Record SafeRunResult : Type := mkResult { ok : bool; result : option T }.

(** One [safeRun] call: its arguments, the clock and random readings that
    [generateLockValue] takes, whether the cache is reachable when the lock
    is acquired and when it is released, and what the task settles to. *)
Record Call : Type := mkCall {
  key : string;
  opts : SafeRunOptions;
  timestamp : Z;
  random : string;
  acquireUp : bool;
  task : Res T;
  releaseUp : bool
}.

Definition lockKeyOf (call : Call) : string :=
  buildLockKey (key call) (Some (default KEY_PREFIX (prefix (opts call)))).

(** [safeRun] up to the point where the task is started: [Some] of the
    lock key and lease value when the lock was acquired. *)
Definition safeRun_acquire (call : Call) (m : MutexLock) (c : Cache)
    : option (string * string) * MutexLock * Cache :=
  let lockKey := lockKeyOf call in
  let ttl := normalizeTtl (ttlMs (opts call)) in
  let autoRenew_ := default DEFAULT_AUTO_RENEW (autoRenew (opts call)) in
  let renewRatio := default DEFAULT_RENEW_RATIO (renewIntervalRatio (opts call)) in
  let '(acquired, c') :=
    acquire m lockKey ttl (timestamp call) (random call) (acquireUp call) c in
  match acquired with
  | Some lockValue =>
      if truthy lockValue then
        (Some (lockKey, lockValue),
         if autoRenew_ then startAutoRenew lockKey lockValue ttl renewRatio m else m,
         c')
      else (None, m, c')
  | None => (None, m, c')
  end.

(** [safeRun] from the point where the task has settled. *)
Definition safeRun_settle (call : Call) (lockKey lockValue : string)
    (m : MutexLock) (c : Cache) : Res SafeRunResult * MutexLock * Cache :=
  let '(m', c') := releaseAndStopRenew lockKey lockValue (releaseUp call) m c in
  match task call with
  | Ok r => (Ok {| ok := true; result := Some r |}, m', c')
  | Throw err => (Throw err, m', c')
  end.


(** *** Two calls in flight

    Two [safeRun] calls, possibly on lock objects of different processes
    ([proc]), over one cache.  A call is [Idle] until its [SET NX PX]
    round trip, [Running] while its task is in flight, and [Returned]
    afterwards. *)
Inductive Caller : Type := CallerA | CallerB.


Inductive Phase : Type :=
  | Idle
  | Running (lockKey lockValue : string)
  | Returned (r : Res SafeRunResult).

Record System : Type := mkSystem {
  cache : Cache;
  procs : nat -> MutexLock;
  phaseA : Phase;
  phaseB : Phase
}.

Definition phase (s : System) (who : Caller) : Phase :=
  match who with CallerA => phaseA s | CallerB => phaseB s end.

Definition setPhase (who : Caller) (p : Phase) (s : System) : System :=
  match who with
  | CallerA => {| cache := cache s; procs := procs s; phaseA := p; phaseB := phaseB s |}
  | CallerB => {| cache := cache s; procs := procs s; phaseA := phaseA s; phaseB := p |}
  end.

Definition setWorld (pid : nat) (m : MutexLock) (c : Cache) (s : System) : System :=
  {| cache := c;
     procs := fun q => if decide (q = pid) then m else procs s q;
     phaseA := phaseA s; phaseB := phaseB s |}.

Inductive Step : Type :=
  | StepAcquire (who : Caller)
  | StepSettle (who : Caller)
  | StepTimer (pid h : nat) (up : bool).

Section Steps.
(** The two calls and the process each one runs in. *)
Variable calls_ : Caller -> Call.
Variable proc : Caller -> nat.

Definition step (st : Step) (s : System) : System :=
  match st with
  | StepAcquire who =>
      match phase s who with
      | Idle =>
          match safeRun_acquire (calls_ who) (procs s (proc who)) (cache s) with
          | (None, m', c') =>
              setPhase who (Returned (Ok {| ok := false; result := None |}))
                (setWorld (proc who) m' c' s)
          | (Some (lockKey, lockValue), m', c') =>
              setPhase who (Running lockKey lockValue) (setWorld (proc who) m' c' s)
          end
      | _ => s
      end
  | StepSettle who =>
      match phase s who with
      | Running lockKey lockValue =>
          let '(r, m', c') :=
            safeRun_settle (calls_ who) lockKey lockValue
              (procs s (proc who)) (cache s) in
          setPhase who (Returned r) (setWorld (proc who) m' c' s)
      | _ => s
      end
  | StepTimer pid h up =>
      let '(m', c') := timerFires h up (procs s pid) (cache s) in
      setWorld pid m' c' s
  end.

Definition run (schedule : list Step) (s : System) : System :=
  fold_left (fun s st => step st s) schedule s.
End Steps.





End SafeRun.

Arguments SafeRunResult : clear implicits.
Arguments Call : clear implicits.
Arguments Phase : clear implicits.
Arguments System : clear implicits.


(** [Array.from(this.renewMap.entries())]: the keys with the records they
    refer to.  The entries come in the order of the finite map, not in
    insertion order. *)
Definition entries (m : MutexLock) : list (string * RenewRecord) :=
  omap (fun kr => r ← records m !! snd kr; Some (fst kr, r))
       (map_to_list (renewMap m)).






End MutexLock.

(** ** Table identifiers ([MySQLService.ts]) *)

Module MySQLService.

(** [String.prototype.split] with a non-empty separator, scanning from the
    left; [skip] counts the characters of a separator just matched that
    are still to be passed over. *)
Fixpoint splitFrom (sep : string) (skip : nat) (s : string) : list string :=
  match s with
  | EmptyString => [EmptyString]
  | String c rest =>
      match skip with
      | S k => splitFrom sep k rest
      | 0 =>
          if String.prefix sep s
          then EmptyString :: splitFrom sep (String.length sep - 1) rest
          else match splitFrom sep 0 rest with
               | [] => [String c EmptyString]
               | h :: t => String c h :: t
               end
      end
  end.

(** [statement.split(separator)]; with the empty separator the string
    falls apart into its characters. *)
Definition split (separator statement : string) : list string :=
  if truthy separator then splitFrom separator 0 statement
  else map (fun c => String c EmptyString) (list_ascii_of_string statement).

(** [stateParse]: the database name and the table name (or statement) of
    an identifier [db::table]. *)
Definition stateParse (statement separator : string) : Res (string * string) :=
  match split separator statement with
  | [part] => Ok ("default", part)
  | dbName :: parts =>
      let tbName := join separator parts in
      if negb (truthy dbName) || negb (truthy tbName)
      then Throw (Error ("无法解析语句: " +:+ dquote +:+ statement +:+ dquote
                         +:+ "，格式应为 " +:+ dquote +:+ "数据库名" +:+ separator
                         +:+ "表名" +:+ dquote))
      else Ok (dbName, tbName)
  | [] => Throw (Error ("解析失败: " +:+ dquote +:+ statement +:+ dquote))
  end.

End MySQLService.


(** ** Sample data for the worked examples *)


Definition jobCall (releaseUp_ : bool) (task_ : Res Z) : MutexLock.Call Z :=
  {| MutexLock.key := "job"; MutexLock.opts := MutexLock.noOptions;
     MutexLock.timestamp := 1700000000000; MutexLock.random := "r4nd0m";
     MutexLock.acquireUp := true; MutexLock.task := task_;
     MutexLock.releaseUp := releaseUp_ |}.

Definition emptyCache : Redis.Cache := {| Redis.store := ∅; Redis.calls := [] |}.

Definition twoCalls (who : MutexLock.Caller) : MutexLock.Call Z :=
  match who with
  | MutexLock.CallerA => jobCall true (Ok 1%Z)
  | MutexLock.CallerB =>
      {| MutexLock.key := " job "; MutexLock.opts := MutexLock.noOptions;
         MutexLock.timestamp := 1700000000001; MutexLock.random := "0therr";
         MutexLock.acquireUp := true; MutexLock.task := Ok 2%Z;
         MutexLock.releaseUp := true |}
  end.

Definition idleSystem : MutexLock.System Z :=
  {| MutexLock.cache := emptyCache;
     MutexLock.procs := fun _ => MutexLock.create "host:1:abc";
     MutexLock.phaseA := MutexLock.Idle;
     MutexLock.phaseB := MutexLock.Idle |}.

Definition raceSchedule : list MutexLock.Step :=
  [MutexLock.StepAcquire MutexLock.CallerB; MutexLock.StepTimer 0 1 true].

Definition adultsQuery : Dialect.SelectParams :=
  {| Dialect.s_table := "users";
     Dialect.s_fields := Some "id, name";
     Dialect.s_where :=
       Some (Dialect.WObject
               [("age", VObj [("gte", VNum 18); ("lt", VNum 60)]); ("deleted_at", VNull)]
               None
               (Some [Dialect.WObject [("city", VStr "Beijing")] None None;
                      Dialect.WArray "score > ?" (Some [VNum 90])]));
     Dialect.s_order := Some [("id", VStr "desc")];
     Dialect.s_limit := Some 10%Z;
     Dialect.s_offset := Some 20%Z;
     Dialect.s_join := Some [("orders", Dialect.JoinOn "users.id = orders.user_id")];
     Dialect.s_groupBy := Some (Dialect.GString "users.id");
     Dialect.s_having := Some (Dialect.HObject [("total", VObj [("gt", VNum 5)])]) |}.

Definition adultsStatement : Dialect.ValueHolders :=
  {| Dialect.prepare :=
       "SELECT id, name FROM `users` INNER JOIN `orders` ON users.id = orders.user_id"
       +:+ " WHERE (`age` >= ? AND `age` < ?) AND `deleted_at` IS NULL"
       +:+ " AND ( `city` = ? OR score > ? )"
       +:+ " GROUP BY `users`.`id` HAVING `total` > ? ORDER BY `id` DESC LIMIT 20, 10";
     Dialect.holders := [VNum 18; VNum 60; VStr "Beijing"; VNum 90; VNum 5] |}.

Definition rawQuery (where_ : Dialect.Where) : Dialect.SelectParams :=
  {| Dialect.s_table := "users"; Dialect.s_fields := None;
     Dialect.s_where := Some where_; Dialect.s_order := None;
     Dialect.s_limit := None; Dialect.s_offset := None; Dialect.s_join := None;
     Dialect.s_groupBy := None; Dialect.s_having := None |}.

Definition healthyConnection : Driver.Connection :=
  {| Driver.onGetConnection := Ok tt; Driver.onBeginTransaction := Ok tt;
     Driver.onCommit := Ok tt; Driver.onRollback := Ok tt |}.

Definition failingBegin : Driver.Connection :=
  {| Driver.onGetConnection := Ok tt;
     Driver.onBeginTransaction := Throw (Error "BEGIN failed");
     Driver.onCommit := Ok tt; Driver.onRollback := Ok tt |}.

Definition failingCallback (d : Driver.MySQLDriver) : Res Z * Driver.MySQLDriver :=
  (Throw (Error "boom"), d).



(** * Properties *)

(** ** Repository facade *)

Section TableFacts.
Import Dialect Table.
Context `{D : BaseDialect}.
Variable execute : string -> list Value -> Res ResultHeader.

(** What a successful [upsert] has done: its guards passed, one statement
    went to the driver, and the header it answered is what was recorded. *)
Lemma upsert_success t data uniqueKeys updateData :
  ret (upsert execute t data uniqueKeys updateData) = Ok true ->
  uniqueKeys <> [] /\
  forallb (hasKey data) uniqueKeys = true /\
  exists build vh header,
    buildUpsert = Some build /\
    build {| u_table := tableName t; u_data := data;
             u_uniqueKeys := uniqueKeys; u_updateData := updateData |} = Ok vh /\
    execute (prepare vh) (holders vh) = Ok header /\
    issued (upsert execute t data uniqueKeys updateData) = [(prepare vh, holders vh)] /\
    getLastResult (self (upsert execute t data uniqueKeys updateData)) =
      Some {| type := op_upsert;
              affectedRows := h_affectedRows header;
              insertId := h_insertId header;
              action := Some (if decide (h_affectedRows header = 1%Z)
                              then action_insert else action_update) |}.
Proof.
  unfold upsert. destruct uniqueKeys as [|k ks]; [discriminate|].
  destruct (find _ (k :: ks)) as [missing|] eqn:Hfind; [discriminate|].
  destruct buildUpsert as [build|]; [|discriminate].
  destruct (build _) as [vh|e] eqn:Hbuild; [|discriminate].
  destruct (execute _ _) as [header|e] eqn:Hexec; [|discriminate].
  intros _. split; [discriminate|]. split.
  - apply forallb_forall. intros key Hin.
    pose proof (find_none _ _ Hfind key Hin) as Hk.
    now apply negb_false_iff in Hk.
  - exists build, vh, header. repeat split; try assumption; reflexivity.
Qed.


(** C10. On a successful [upsert] the recorded action is [insert] exactly
    when the backend reported one affected row; every other count,
    0 (row present, data unchanged) included, is recorded as [update]. *)
Theorem upsert_action_update_unless_one t data uniqueKeys updateData :
  ret (upsert execute t data uniqueKeys updateData) = Ok true ->
  exists sql params header act,
    issued (upsert execute t data uniqueKeys updateData) = [(sql, params)] /\
    execute sql params = Ok header /\
    getLastResult (self (upsert execute t data uniqueKeys updateData)) ≫= action
      = Some act /\
    (h_affectedRows header <> 1%Z -> act = action_update) /\
    (h_affectedRows header = 0%Z -> act = action_update) /\
    (act = action_insert -> h_affectedRows header = 1%Z).
Proof.
  intros Hok.
  destruct (upsert_success _ _ _ _ Hok)
    as (_ & _ & build & vh & header & _ & _ & Hexec & Hissued & Hlast).
  exists (prepare vh), (holders vh), header,
    (if decide (h_affectedRows header = 1%Z) then action_insert else action_update).
  rewrite Hlast. repeat split; try assumption.
  - intros Hne. destruct (decide _); [contradiction|reflexivity].
  - intros ->. reflexivity.
  - destruct (decide _); [trivial|discriminate].
Qed.

Lemma collect_unresolvable data :
  forallb (fun kv => negb (resolvable kv)) data = true ->
  collect (fun kv => createDataFilter (fst kv) (snd kv)) (fun _ s => s) data
    = Ok ([], []).
Proof.
  induction data as [|kv data IH]; [reflexivity|].
  cbn [forallb]. intros [Hkv Hrest]%andb_prop. cbn [collect].
  unfold resolvable in Hkv.
  destruct (createDataFilter kv.1 kv.2) as [vh|e]; [|discriminate].
  apply negb_true_iff in Hkv. cbn. rewrite (IH Hrest). cbn. now rewrite Hkv.
Qed.

(** C6. When no field of [data] resolves to an assignment, [update]
    returns [true], records an Operation Result of type [update] with
    [affectedRows = 0], and hands nothing to the driver: the compiler's
    complaint does not reach the caller. *)
Theorem update_without_assignments t data where_ order limit :
  forallb (fun kv => negb (resolvable kv)) data = true ->
  buildUpdate {| up_table := tableName t; up_data := data; up_where := where_;
                 up_order := order; up_limit := limit |}
    = Throw (Error "No fields to update") /\
  ret (update execute t data where_ order limit) = Ok true /\
  getLastResult (self (update execute t data where_ order limit)) =
    Some {| type := op_update; affectedRows := 0; insertId := None; action := None |} /\
  issued (update execute t data where_ order limit) = [].
Proof.
  intros Hnone.
  assert (Hbuild : buildUpdate {| up_table := tableName t; up_data := data;
                      up_where := where_; up_order := order; up_limit := limit |}
                   = Throw (Error "No fields to update")).
  { unfold buildUpdate. cbn. now rewrite (collect_unresolvable _ Hnone). }
  split; [exact Hbuild|].
  unfold update. rewrite Hbuild. cbn. repeat split.
Qed.
End TableFacts.

(** The payloads the facade treats as empty under the MySQL dialect: no
    field at all, [undefined] values, operator objects without a key. *)
Lemma mysql_unresolvable_examples :
  forallb (fun kv => negb (Dialect.resolvable kv))
    [("a", VUndefined); ("b", VObj []); ("c", VArr [])] = true /\
  forallb (fun kv => negb (Dialect.resolvable kv)) [] = true.
Proof. split; reflexivity. Qed.


Lemma upsert_action_update_unless_one_witness :
  let execute := fun _ _ => Ok {| Table.h_affectedRows := 0; Table.h_insertId := None |} in
  let t := Table.mkTable "user_stats" None in
  let data := [("user_id", VNum 123); ("login_count", VNum 1)] in
  exists sql params header act,
    Table.issued (Table.upsert execute t data ["user_id"] None) = [(sql, params)] /\
    execute sql params = Ok header /\
    Table.getLastResult (Table.self (Table.upsert execute t data ["user_id"] None))
      ≫= Table.action = Some act /\
    (Table.h_affectedRows header <> 1%Z -> act = Table.action_update) /\
    (Table.h_affectedRows header = 0%Z -> act = Table.action_update) /\
    (act = Table.action_insert -> Table.h_affectedRows header = 1%Z).
Proof.
  exact (upsert_action_update_unless_one
           (fun _ _ => Ok {| Table.h_affectedRows := 0; Table.h_insertId := None |})
           (Table.mkTable "user_stats" None)
           [("user_id", VNum 123); ("login_count", VNum 1)] ["user_id"] None eq_refl).
Defined.

Lemma update_without_assignments_witness :
  let execute := fun _ _ => Throw (Error "unreachable") in
  let t := Table.mkTable "users" None in
  let data := [("name", VUndefined); ("age", VObj [])] in
  Dialect.buildUpdate {| Dialect.up_table := "users"; Dialect.up_data := data;
                         Dialect.up_where := None; Dialect.up_order := None;
                         Dialect.up_limit := None |}
    = Throw (Error "No fields to update") /\
  Table.ret (Table.update execute t data None None None) = Ok true /\
  Table.getLastResult (Table.self (Table.update execute t data None None None)) =
    Some {| Table.type := Table.op_update; Table.affectedRows := 0;
            Table.insertId := None; Table.action := None |} /\
  Table.issued (Table.update execute t data None None None) = [].
Proof.
  exact (update_without_assignments
           (fun _ _ => Throw (Error "unreachable"))
           (Table.mkTable "users" None)
           [("name", VUndefined); ("age", VObj [])] None None None eq_refl).
Defined.

(** ** Connection driver *)

Section DriverFacts.
Import Driver.
Context {T : Type}.
Variable operation : nat -> Res T.

Lemma attempts_app evs1 evs2 : attempts (evs1 ++ evs2) = attempts evs1 + attempts evs2.
Proof. unfold attempts. now rewrite filter_app, length_app. Qed.

Lemma rebuilds_app evs1 evs2 : rebuilds (evs1 ++ evs2) = rebuilds evs1 + rebuilds evs2.
Proof. unfold rebuilds. now rewrite filter_app, length_app. Qed.

Lemma recreatePool_attempts d : attempts (snd (recreatePool d)) = 0.
Proof. unfold recreatePool. now destruct (rebuildLock d). Qed.


End DriverFacts.



(** ** Query compiler: operator objects *)

Section FilterFacts.
Import Dialect MySQLDialect.

Lemma collect_fragments {A} (f : A -> Res ValueHolders) (l : list A) :
  collect f (fun _ s => s) l =
    (rs ← mapRes f l;
     let kept := List.filter (fun r => truthy (prepare r)) rs in
     Ok (map prepare kept, concat (map holders kept))).
Proof.
  induction l as [|x l IH]; [reflexivity|].
  cbn [collect mapRes]. destruct (f x) as [r|e]; [|reflexivity].
  cbn. rewrite IH. destruct (mapRes f l) as [rs|e]; [|reflexivity].
  cbn. destruct (truthy (prepare r)); reflexivity.
Qed.

Lemma append_assoc (a b c : string) : (a +:+ b) +:+ c = a +:+ (b +:+ c).
Proof.
  induction a as [|x a IH]; [reflexivity|].
  change (String x ((a +:+ b) +:+ c) = String x (a +:+ (b +:+ c))).
  now rewrite IH.
Qed.

Lemma truthy_nonempty s : truthy s = true <-> s <> "".
Proof.
  unfold truthy. rewrite negb_true_iff. split.
  - intros H ->. discriminate.
  - intros H. destruct s; [contradiction|reflexivity].
Qed.

(** A fragment of [createOperatorCondition] is empty or starts with the
    escaped field, hence with a backquote. *)
Lemma operatorCondition_backquote key op v r :
  createOperatorCondition key op v = Ok r ->
  prepare r = "" \/ exists rest, prepare r = String "`"%char rest.
Proof.
  unfold createOperatorCondition, escapeIdentifier.
  destruct (parseOperator op) as [[]|]; intros H;
    repeat match type of H with
           | match ?x with _ => _ end = _ => destruct x
           end;
    inversion H; subst; cbn; eauto.
Qed.

Lemma yieldsFragment_truthy key kv r :
  yieldsFragment kv = true ->
  createOperatorCondition key (fst kv) (snd kv) = Ok r ->
  truthy (prepare r) = true.
Proof.
  unfold yieldsFragment, createOperatorCondition, escapeIdentifier.
  destruct (parseOperator (fst kv)) as [[]|]; intros Hy H;
    repeat match type of H with
           | match ?x with _ => _ end = _ => destruct x
           end;
    try discriminate; inversion H; subst; reflexivity.
Qed.

(** The other operators compile to nothing. *)
Lemma skipped_operator key kv r :
  yieldsFragment kv = false ->
  createOperatorCondition key (fst kv) (snd kv) = Ok r -> r = emptyVH.
Proof.
  unfold yieldsFragment, createOperatorCondition.
  destruct (parseOperator (fst kv)) as [[]|]; intros Hy H;
    repeat match type of H with
           | match ?x with _ => _ end = _ => destruct x
           end;
    try discriminate; inversion H; reflexivity.
Qed.

Lemma not_parenthesized_backquote rest : ~ parenthesized (String "`"%char rest).
Proof. intros [body H]. discriminate. Qed.

(** C9 (as the compiler implements it).  [{gte: 18, lt: 60}] on a field
    compiles to the two comparisons joined with AND inside parentheses,
    with parameters 18 and 60 in that order.  In general the fragments of
    an operator object are those of its operators that produce text, in
    order; one alone stands as it is, several are joined with AND and
    parenthesized, so the result is parenthesized exactly when more than
    one fragment was produced.  When every operator is a known one (and
    [isNull] / [isNotNull] carry a boolean) there is one fragment per
    operator; an unknown operator, or [isNull] / [isNotNull] with another
    argument, compiles to the empty fragment. *)
Theorem createFilter_operator_object :
  (forall key,
      createFilter key (VObj [("gte", VNum 18); ("lt", VNum 60)]) =
        Ok {| prepare := "(" +:+ escapeIdentifier key +:+ " >= ? AND "
                         +:+ escapeIdentifier key +:+ " < ?)";
              holders := [VNum 18; VNum 60] |}) /\
  (forall key ops kept,
      operatorFragments key ops = Ok kept ->
      exists vh,
        createFilter key (VObj ops) = Ok vh /\
        prepare vh = match kept with
                     | [] => ""
                     | [r] => prepare r
                     | _ => "(" +:+ join " AND " (map prepare kept) +:+ ")"
                     end /\
        holders vh = concat (map holders kept) /\
        (parenthesized (prepare vh) <-> 1 < length kept) /\
        (forallb yieldsFragment ops = true -> length kept = length ops)) /\
  (forall key kv r,
      yieldsFragment kv = false ->
      createOperatorCondition key (fst kv) (snd kv) = Ok r -> r = emptyVH).
Proof.
  split; [|split]; [| |apply skipped_operator].
  - intros key.
    transitivity
      (Ok {| prepare := "(" +:+ join " AND " [escapeIdentifier key +:+ " >= ?";
                                              escapeIdentifier key +:+ " < ?"] +:+ ")";
             holders := [VNum 18; VNum 60] |}); [reflexivity|].
    do 2 f_equal. cbv [join String.concat escapeIdentifier].
    rewrite !append_assoc. reflexivity.
  - intros key ops kept Hk. unfold operatorFragments in Hk.
    destruct (mapRes _ ops) as [rs|e] eqn:Hrs; [|discriminate].
    cbn in Hk. injection Hk as <-.
    set (kept := List.filter (fun r => truthy (prepare r)) rs).
    assert (Hcf : createFilter key (VObj ops) =
              Ok (if decide (length (map prepare kept) = 0) then emptyVH
                  else {| prepare := if decide (1 < length (map prepare kept))
                                     then "(" +:+ join " AND " (map prepare kept) +:+ ")"
                                     else nth 0 (map prepare kept) "";
                          holders := concat (map holders kept) |})).
    { unfold createFilter. cbn [ownProps]. rewrite collect_fragments, Hrs. cbn.
      fold kept. destruct (decide _); reflexivity. }
    assert (Hback : Forall (fun r => exists rest, prepare r = String "`"%char rest) kept).
    { apply Forall_forall. intros r Hin%list_elem_of_In.
      apply filter_In in Hin as [Hin Ht].
      assert (exists kv, createOperatorCondition key (fst kv) (snd kv) = Ok r)
        as [kv Hkv].
      { clear -Hrs Hin. revert rs Hrs Hin.
        induction ops as [|kv ops IH]; intros rs Hrs Hin; cbn in Hrs.
        - injection Hrs as <-. destruct Hin.
        - destruct (createOperatorCondition key kv.1 kv.2) as [r0|] eqn:H0; [|discriminate].
          destruct (mapRes _ ops) as [rs0|]; [|discriminate].
          injection Hrs as <-. destruct Hin as [->|Hin]; eauto. }
      destruct (operatorCondition_backquote _ _ _ _ Hkv) as [He|He]; [|exact He].
      rewrite He in Ht. discriminate. }
    eexists. split; [exact Hcf|].
    rewrite length_map.
    destruct kept as [|r1 [|r2 kept']] eqn:Hkept; cbn.
    + repeat split; try reflexivity.
      * intros [body H]. discriminate.
      * intros H. lia.
      * intros Hall. destruct ops as [|kv ops]; [reflexivity|].
        exfalso. cbn in Hrs, Hall. apply andb_prop in Hall as [Hkv _].
        destruct (createOperatorCondition key kv.1 kv.2) as [r0|] eqn:H0; [|discriminate].
        destruct (mapRes _ ops) as [rs0|]; [|discriminate].
        injection Hrs as <-. subst kept. cbn in Hkept.
        rewrite (yieldsFragment_truthy _ _ _ Hkv H0) in Hkept. discriminate.
    + repeat split; try reflexivity.
      * intros Hp. exfalso. apply Forall_inv in Hback as [rest Hr].
        rewrite Hr in Hp. exact (not_parenthesized_backquote _ Hp).
      * intros H. lia.
      * intros Hall. subst kept.
        change 1 with (length [r1]). rewrite <- Hkept. clear Hkept Hback Hcf.
        revert rs Hrs. induction ops as [|kv ops IH]; intros rs Hrs; cbn in Hrs.
        { injection Hrs as <-. reflexivity. }
        cbn in Hall. apply andb_prop in Hall as [Hkv Hall].
        destruct (createOperatorCondition key kv.1 kv.2) as [r0|] eqn:H0; [|discriminate].
        destruct (mapRes _ ops) as [rs0|] eqn:Hrs0; [|discriminate].
        injection Hrs as <-. cbn.
        rewrite (yieldsFragment_truthy _ _ _ Hkv H0). cbn. f_equal. now apply IH.
    + repeat split; try reflexivity.
      * intros _. lia.
      * intros _. eexists. reflexivity.
      * intros Hall. subst kept.
        change (S (S (length kept'))) with (length (r1 :: r2 :: kept')).
        rewrite <- Hkept. clear Hkept Hback Hcf.
        revert rs Hrs. induction ops as [|kv ops IH]; intros rs Hrs; cbn in Hrs.
        { injection Hrs as <-. reflexivity. }
        cbn in Hall. apply andb_prop in Hall as [Hkv Hall].
        destruct (createOperatorCondition key kv.1 kv.2) as [r0|] eqn:H0; [|discriminate].
        destruct (mapRes _ ops) as [rs0|] eqn:Hrs0; [|discriminate].
        injection Hrs as <-. cbn.
        rewrite (yieldsFragment_truthy _ _ _ Hkv H0). cbn. f_equal. now apply IH.
Qed.
End FilterFacts.

Lemma createFilter_operator_object_witness :
  let ops := [("gt", VNum 18); ("lte", VNum 60); ("isNotNull", VBool true)] in
  let kept := [ {| Dialect.prepare := "`age` > ?"; Dialect.holders := [VNum 18] |};
                {| Dialect.prepare := "`age` <= ?"; Dialect.holders := [VNum 60] |};
                {| Dialect.prepare := "`age` IS NOT NULL"; Dialect.holders := [] |} ] in
  exists vh,
    MySQLDialect.createFilter "age" (VObj ops) = Ok vh /\
    Dialect.prepare vh = "(" +:+ join " AND " (map Dialect.prepare kept) +:+ ")" /\
    Dialect.holders vh = concat (map Dialect.holders kept) /\
    (MySQLDialect.parenthesized (Dialect.prepare vh) <-> 1 < length kept) /\
    (forallb MySQLDialect.yieldsFragment ops = true -> length kept = length ops).
Proof.
  exact (proj1 (proj2 createFilter_operator_object) "age"
           [("gt", VNum 18); ("lte", VNum 60); ("isNotNull", VBool true)]
           [ {| Dialect.prepare := "`age` > ?"; Dialect.holders := [VNum 18] |};
             {| Dialect.prepare := "`age` <= ?"; Dialect.holders := [VNum 60] |};
             {| Dialect.prepare := "`age` IS NOT NULL"; Dialect.holders := [] |} ]
           eq_refl).
Defined.

(** C9 as stated fails on an operator that produces no fragment: with two
    operators present, one of them [isNull] without a boolean argument, the
    single fragment left is not parenthesized. *)
Lemma createFilter_two_operators_unparenthesized :
  let ops := [("gte", VNum 18); ("isNull", VUndefined)] in
  1 < length ops /\
  MySQLDialect.createFilter "age" (VObj ops) =
    Ok {| Dialect.prepare := "`age` >= ?"; Dialect.holders := [VNum 18] |} /\
  ~ MySQLDialect.parenthesized "`age` >= ?".
Proof.
  cbn. split; [lia|]. split; [reflexivity|]. intros [body H]. discriminate.
Qed.

(** ** Repository facade: batch insert *)

Section AddsFacts.
Import Dialect Table.

#[local] Instance str_le_total : Total str_le.
Proof. intros a b. unfold str_le. apply String.leb_total. Qed.

#[local] Instance str_le_antisym : AntiSymm eq str_le.
Proof. intros a b. unfold str_le. apply String.leb_antisym. Qed.

Lemma compare_refl s : String.compare s s = Eq.
Proof.
  destruct (String.compare s s) eqn:E; [reflexivity| |];
    pose proof (String.compare_antisym s s) as H; rewrite E in H; discriminate.
Qed.

#[local] Instance str_le_trans : Transitive str_le.
Proof.
  intros a b c. unfold str_le, String.leb.
  destruct (String.compare a b) eqn:E1; try discriminate; intros _;
    destruct (String.compare b c) eqn:E2; try discriminate; intros _.
  - apply String.compare_eq_iff in E1, E2. subst. now rewrite compare_refl.
  - apply String.compare_eq_iff in E1. subst. now rewrite E2.
  - apply String.compare_eq_iff in E2. subst. now rewrite E1.
  - apply OrderedTypeEx.String_as_OT.cmp_lt in E1, E2.
    pose proof (OrderedTypeEx.String_as_OT.lt_trans _ _ _ E1 E2) as H.
    apply OrderedTypeEx.String_as_OT.cmp_lt in H.
    unfold OrderedTypeEx.String_as_OT.cmp in H. now rewrite H.
Qed.

(** Sorting yields the same list exactly for rearrangements. *)
Lemma sort_eq_iff (a b : list string) : sort a = sort b <-> a ≡ₚ b.
Proof.
  unfold sort. split.
  - intros H. rewrite <- (merge_sort_Permutation str_le a), H.
    apply merge_sort_Permutation.
  - intros H. apply (StronglySorted_unique str_le).
    + apply StronglySorted_merge_sort; apply _.
    + apply StronglySorted_merge_sort; apply _.
    + now rewrite !merge_sort_Permutation.
Qed.

Lemma every_eq_prefix keys : forall index firstKeys,
  every_eq index keys firstKeys = true <->
  exists tail, drop index firstKeys = keys ++ tail.
Proof.
  induction keys as [|key keys IH]; intros index firstKeys; cbn [every_eq].
  - split; [intros _; eexists; reflexivity|reflexivity].
  - destruct (firstKeys !! index) as [k|] eqn:Hnth.
    + rewrite andb_true_iff, String.eqb_eq, IH.
      rewrite (drop_S _ _ _ Hnth). split.
      * intros [-> [tail ->]]. eexists. reflexivity.
      * intros [tail H]. cbn in H. injection H as -> H. eauto.
    + apply lookup_ge_None in Hnth.
      rewrite drop_ge by exact Hnth. split; [discriminate|].
      intros [tail H]. discriminate.
Qed.

Lemma differentFields_false keys firstKeys :
  differentFields keys firstKeys = false <-> keys = firstKeys.
Proof.
  unfold differentFields.
  rewrite orb_false_iff, !negb_false_iff, Nat.eqb_eq, every_eq_prefix. split.
  - intros [Hlen [tail H]]. rewrite drop_0 in H. subst firstKeys.
    rewrite length_app in Hlen. destruct tail; [now rewrite app_nil_r|].
    cbn in Hlen. lia.
  - intros ->. split; [reflexivity|]. exists []. now rewrite drop_0, app_nil_r.
Qed.

Lemma differentFields_sameFieldSet record first :
  NoDup (map fst record) -> NoDup (map fst first) ->
  differentFields (sort (map fst record)) (sort (map fst first)) = false
  <-> sameFieldSet record first.
Proof.
  intros Hr Hf. rewrite differentFields_false, sort_eq_iff. split.
  - intros Hp k. now rewrite Hp.
  - intros Hs. now apply NoDup_Permutation.
Qed.

Lemma checkFields_first_mismatch first rest :
  NoDup (map fst first) ->
  Forall (fun r => NoDup (map fst r)) rest ->
  forall i0,
    match checkFields (sort (map fst first)) i0 rest with
    | None => Forall (fun r => sameFieldSet r first) rest
    | Some e =>
        exists i record,
          rest !! i = Some record /\
          ~ sameFieldSet record first /\
          (forall j r, j < i -> rest !! j = Some r -> sameFieldSet r first) /\
          e = differentFieldsError (i0 + i) (sort (map fst first))
                (sort (map fst record))
    end.
Proof.
  intros Hf Hall. induction Hall as [|record rest Hr Hall IH]; intros i0.
  - constructor.
  - cbn [checkFields].
    destruct (differentFields _ _) eqn:Hd.
    + exists 0, record. split; [reflexivity|]. split; [|split].
      * intros Hs. apply (differentFields_sameFieldSet _ _ Hr Hf) in Hs. congruence.
      * intros j r Hj. lia.
      * now rewrite Nat.add_0_r.
    + apply (differentFields_sameFieldSet _ _ Hr Hf) in Hd.
      specialize (IH (S i0)). destruct (checkFields _ _ rest) as [e|].
      * destruct IH as (i & r & Hi & Hns & Hbefore & ->).
        exists (S i), r. split; [exact Hi|]. split; [exact Hns|]. split.
        -- intros [|j] r' Hj Hl; cbn in Hl.
           ++ now injection Hl as <-.
           ++ apply (Hbefore j); [lia|assumption].
        -- f_equal. lia.
      * now constructor.
Qed.

Context `{D : BaseDialect}.
Variable execute : string -> list Value -> Res ResultHeader.

(** C8. When some record of a batch declares a field set different from
    the first record's, [adds] throws, hands nothing to the driver and
    leaves the table untouched; the exception names the index of the
    first such record, the sorted field list of the first record and the
    sorted field list found. *)
Theorem adds_rejects_field_mismatch t first rest :
  Forall (fun r => NoDup (map fst r)) (first :: rest) ->
  Exists (fun r => ~ sameFieldSet r first) rest ->
  exists i record,
    (first :: rest) !! i = Some record /\
    ~ sameFieldSet record first /\
    (forall j r, j < i -> (first :: rest) !! j = Some r -> sameFieldSet r first) /\
    adds execute t (first :: rest) =
      mkRun (Throw (Error ("Record at index " +:+ nat_to_string i
                           +:+ " has different fields. "
                           +:+ "Expected: [" +:+ join ", " (sort (map fst first)) +:+ "], "
                           +:+ "Got: [" +:+ join ", " (sort (map fst record)) +:+ "]")))
            t [].
Proof.
  intros Hnodup Hex. apply Forall_cons in Hnodup as [Hf Hall].
  pose proof (checkFields_first_mismatch first rest Hf Hall 1) as Hcheck.
  unfold adds. destruct (checkFields _ 1 rest) as [e|].
  - destruct Hcheck as (i & record & Hi & Hns & Hbefore & ->).
    exists (S i), record. split; [exact Hi|]. split; [exact Hns|]. split.
    + intros [|j] r Hj Hl; cbn in Hl.
      * injection Hl as <-. intros k. reflexivity.
      * apply (Hbefore j); [lia|assumption].
    + reflexivity.
  - exfalso. apply Exists_exists in Hex as (r & Hin & Hns).
    rewrite Forall_forall in Hcheck. exact (Hns (Hcheck r Hin)).
Qed.
End AddsFacts.

Lemma adds_rejects_field_mismatch_witness :
  let execute := fun _ _ => Ok {| Table.h_affectedRows := 3; Table.h_insertId := None |} in
  let t := Table.mkTable "users" None in
  let first := [("name", VStr "a"); ("age", VNum 1)] in
  let rest := [[("age", VNum 2); ("name", VStr "b")]; [("name", VStr "c"); ("email", VNull)]] in
  exists i record,
    (first :: rest) !! i = Some record /\
    ~ Table.sameFieldSet record first /\
    (forall j r, j < i -> (first :: rest) !! j = Some r -> Table.sameFieldSet r first) /\
    Table.adds execute t (first :: rest) =
      Table.mkRun
        (Throw (Error ("Record at index " +:+ nat_to_string i
                       +:+ " has different fields. "
                       +:+ "Expected: [" +:+ join ", " (Table.sort (map fst first)) +:+ "], "
                       +:+ "Got: [" +:+ join ", " (Table.sort (map fst record)) +:+ "]")))
        t [].
Proof.
  refine (adds_rejects_field_mismatch
            (fun _ _ => Ok {| Table.h_affectedRows := 3; Table.h_insertId := None |})
            (Table.mkTable "users" None)
            [("name", VStr "a"); ("age", VNum 1)]
            [[("age", VNum 2); ("name", VStr "b")]; [("name", VStr "c"); ("email", VNull)]]
            _ _).
  - repeat apply Forall_cons_2; try apply Forall_nil_2;
      apply (bool_decide_unpack _); vm_compute; exact I.
  - apply Exists_cons_tl, Exists_cons_hd. intros H.
    assert (Hin : "email" ∈ map fst [("name", VStr "c"); ("email", VNull)])
      by (apply (bool_decide_unpack _); vm_compute; exact I).
    apply H in Hin. revert Hin.
    apply (bool_decide_unpack _). vm_compute. exact I.
Defined.

Example adds_mismatch_message :
  Table.ret (Table.adds (fun _ _ => Throw (Error "unreachable")) (Table.mkTable "users" None)
               [[("name", VStr "a"); ("age", VNum 1)];
                [("age", VNum 2); ("name", VStr "b")];
                [("name", VStr "c"); ("email", VNull)]])
  = Throw (Error ("Record at index 2 has different fields. "
                  +:+ "Expected: [age, name], Got: [email, name]")).
Proof. vm_compute. reflexivity. Qed.

(** ** Lease lock: the renewal bookkeeping *)

Section RenewFacts.
Import Redis MutexLock.

Lemma Inv_create owner : Inv (create owner).
Proof. split; cbn; intros *; rewrite lookup_empty; discriminate. Qed.

Lemma Inv_setFailures ref n m : Inv m -> Inv (setFailures ref n m).
Proof.
  intros [Hreg Hh Hr]. split; cbn; [|exact Hh|exact Hr].
  intros h t Ht. destruct (Hreg h t Ht) as (Hmap & r & Hrec & Hv & Htm).
  split; [exact Hmap|]. cbn.
  destruct (decide (ref = t_record t)) as [->|Hne].
  - rewrite lookup_alter_eq, Hrec. cbn. eexists. split; [reflexivity|]. cbn. auto.
  - rewrite lookup_alter_ne by exact Hne. eauto.
Qed.

(** Dropping the record of [key] together with its timer. *)
Lemma Inv_drop key r m :
  Inv m -> renewMap_get m key = Some r ->
  Inv (renewMap_delete key (clearRenewTimer r m)).
Proof.
  intros [Hreg Hh Hr] Hget. unfold renewMap_get in Hget.
  destruct (renewMap m !! key) as [ref|] eqn:Hkey; [|discriminate]. cbn in Hget.
  assert (Hlive : forall h t,
             intervals (clearRenewTimer r m) !! h = Some t ->
             intervals m !! h = Some t /\ t_key t <> key).
  { intros h t Ht. unfold clearRenewTimer in Ht.
    destruct (timer r) as [h0|] eqn:Htimer; cbn in Ht.
    - apply lookup_delete_Some in Ht as [Hne Ht]. split; [exact Ht|].
      intros Hk. destruct (Hreg h t Ht) as (Hmap & r' & Hrec & _ & Htm).
      rewrite Hk, Hkey in Hmap. injection Hmap as ->.
      rewrite Hget in Hrec. injection Hrec as ->. congruence.
    - split; [exact Ht|].
      intros Hk. destruct (Hreg h t Ht) as (Hmap & r' & Hrec & _ & Htm).
      rewrite Hk, Hkey in Hmap. injection Hmap as ->.
      rewrite Hget in Hrec. injection Hrec as ->. congruence. }
  assert (Hsame : renewMap (clearRenewTimer r m) = renewMap m /\
                  records (clearRenewTimer r m) = records m /\
                  next (clearRenewTimer r m) = next m).
  { unfold clearRenewTimer. destruct (timer r); cbn; auto. }
  destruct Hsame as (Hm & Hrs & Hn).
  split; cbn; rewrite ?Hm, ?Hrs, ?Hn.
  - intros h t Ht. destruct (Hlive h t Ht) as [Ht' Hk].
    destruct (Hreg h t Ht') as (Hmap & Hrec). split; cbn; rewrite ?Hm, ?Hrs.
    + rewrite lookup_delete_ne by congruence. exact Hmap.
    + exact Hrec.
  - intros h t Ht. destruct (Hlive h t Ht) as [Ht' _]. eauto.
  - intros k ref' Hk. apply lookup_delete_Some in Hk as [_ Hk]. eauto.
Qed.

Lemma Inv_stopAutoRenew key v m : Inv m -> Inv (stopAutoRenew key v m).
Proof.
  intros HI. unfold stopAutoRenew.
  destruct (renewMap_get m key) as [r|] eqn:Hget; [|exact HI].
  destruct (String.eqb (value r) v); [|exact HI]. now apply Inv_drop.
Qed.


Lemma Inv_startAutoRenew key v ttl ratio m :
  Inv m -> Inv (startAutoRenew key v ttl ratio m).
Proof.
  intros HI. unfold startAutoRenew.
  destruct (bool_decide _); [exact HI|].
  set (m0 := match renewMap_get m key with
             | Some r => renewMap_delete key (clearRenewTimer r m)
             | None => m
             end).
  assert (HI0 : Inv m0).
  { subst m0. destruct (renewMap_get m key) eqn:Hget; [now apply Inv_drop|exact HI]. }
  assert (Hfree : forall h t, intervals m0 !! h = Some t -> t_key t <> key).
  { intros h t Ht Hk. subst m0. destruct (renewMap_get m key) as [r|] eqn:Hget.
    - pose proof (Inv_drop key r m HI Hget) as [Hreg' _ _].
      destruct (Hreg' h t Ht) as (Hmap & _). cbn in Hmap.
      rewrite Hk, lookup_delete_eq in Hmap. discriminate.
    - destruct HI as [Hreg _ _].
      destruct (Hreg h t Ht) as (Hmap & r' & Hrec & _).
      unfold renewMap_get in Hget. rewrite <- Hk, Hmap in Hget. cbn in Hget.
      congruence. }
  clearbody m0. destruct HI0 as [Hreg Hh Hr]. split; cbn.
  - intros h t Ht. apply lookup_insert_Some in Ht as [[<- <-]|[Hne Ht]].
    + split; cbn; [now rewrite lookup_insert_eq|].
      rewrite lookup_insert_eq. eexists. split; [reflexivity|]. cbn. auto.
    + destruct (Hreg h t Ht) as (Hmap & r & Hrec & Hv & Htm).
      pose proof (Hfree h t Ht) as Hk. pose proof (Hr _ _ Hmap) as Hlt.
      split; cbn.
      * rewrite lookup_insert_ne by congruence. exact Hmap.
      * rewrite lookup_insert_ne by lia. eauto.
  - intros h t Ht. apply lookup_insert_Some in Ht as [[<- <-]|[Hne Ht]]; [lia|].
    specialize (Hh h t Ht). lia.
  - intros k ref Hk. apply lookup_insert_Some in Hk as [[<- <-]|[Hne Hk]]; [lia|].
    specialize (Hr k ref Hk). lia.
Qed.

Lemma Inv_onRenewed t success m : Inv m -> Inv (onRenewed t success m).
Proof.
  intros HI. unfold onRenewed. destruct success; [now apply Inv_setFailures|].
  destruct (bool_decide _).
  - now apply Inv_stopAutoRenew, Inv_setFailures.
  - now apply Inv_setFailures.
Qed.

Lemma Inv_timerFires h up m c : Inv m -> Inv (fst (timerFires h up m c)).
Proof.
  intros HI. unfold timerFires. destruct (intervals m !! h) as [t|]; [|exact HI].
  destruct (extendLockTtl _ _ _ _ _) as [success c']. cbn.
  now apply Inv_onRenewed.
Qed.

Lemma Inv_envStep e m c : Inv m -> Inv (fst (envStep e (m, c))).
Proof.
  intros HI. destruct e; cbn; try exact HI.
  - now apply Inv_timerFires.
  - now apply Inv_startAutoRenew.
  - now apply Inv_stopAutoRenew.
Qed.

Lemma Inv_envRun es : forall m c, Inv m -> Inv (fst (envRun es (m, c))).
Proof.
  induction es as [|e es IH]; intros m c HI; [exact HI|].
  change (envRun (e :: es) (m, c)) with (envRun es (envStep e (m, c))).
  pose proof (Inv_envStep e m c HI) as H.
  destruct (envStep e (m, c)) as [m' c']. now apply IH.
Qed.
End RenewFacts.

(** ** Lease lock: auto-renewal *)

Section AutoRenewFacts.
Import Redis MutexLock.










End AutoRenewFacts.

Example renew_interval_scenario : MutexLock.renewInterval 5000 (1 # 2) = 2500%Z.
Proof. reflexivity. Qed.


(** ** Lease lock: [safeRun] *)

Section SafeRunFacts.
Import Redis MutexLock.
Context {T : Type}.



End SafeRunFacts.



(** ** Lease lock: two calls on one key *)

Section ExclusionFacts.
Import Redis MutexLock.
Context {T : Type}.
Variable calls_ : Caller -> Call T.
Variable proc : Caller -> nat.





Variable key_ : string.
Hypothesis keyA : lockKeyOf (calls_ CallerA) = key_.
Hypothesis keyB : lockKeyOf (calls_ CallerB) = key_.









End ExclusionFacts.


Example race_phases :
  let s := MutexLock.run twoCalls (fun _ => 0)
             (raceSchedule ++ [MutexLock.StepAcquire MutexLock.CallerA]) idleSystem in
  MutexLock.phaseA s =
    MutexLock.Returned (Ok {| MutexLock.ok := false; MutexLock.result := None |}) /\
  MutexLock.phaseB s = MutexLock.Running "NT.MutexLock.:job" "host:1:abc:1700000000001:0therr".
Proof. split; reflexivity. Qed.


(** ** Query compiler: placeholders and parameters *)

Section CountFacts.
Import Balance.

Lemma countChar_app c a b : countChar c (a +:+ b) = countChar c a + countChar c b.
Proof.
  induction a as [|x a IH]; [reflexivity|].
  change (countChar c (String x (a +:+ b)) = countChar c (String x a) + countChar c b).
  cbn [countChar]. rewrite IH. lia.
Qed.

Lemma placeholders_app a b : placeholders (a +:+ b) = placeholders a + placeholders b.
Proof. apply countChar_app. Qed.

Lemma plain_true s : plain s = true <-> placeholders s = 0.
Proof. unfold plain. apply Nat.eqb_eq. Qed.

(** Joining with a plain separator adds no placeholder. *)
Lemma placeholders_join sep l :
  placeholders sep = 0 ->
  placeholders (join sep l) = sum_list (map placeholders l).
Proof.
  intros Hsep. unfold join. induction l as [|a [|b l] IH]; [reflexivity| |].
  - cbn -[placeholders]. lia.
  - change (String.concat sep (a :: b :: l))
      with (a +:+ sep +:+ String.concat sep (b :: l)).
    rewrite !placeholders_app, Hsep, IH. cbn -[placeholders]. lia.
Qed.

Lemma placeholders_truthy s : truthy s = false -> placeholders s = 0.
Proof. destruct s; [reflexivity|discriminate]. Qed.

Lemma uint_plain u : placeholders (NilEmpty.string_of_uint u) = 0.
Proof. induction u; cbn; auto. Qed.

Lemma nilzero_uint_plain u : placeholders (NilZero.string_of_uint u) = 0.
Proof.
  destruct u; [reflexivity|..];
    match goal with
    | |- placeholders (NilZero.string_of_uint ?d) = 0 => exact (uint_plain d)
    end.
Qed.

Lemma Z_to_string_plain z : placeholders (Z_to_string z) = 0.
Proof.
  unfold Z_to_string, NilZero.string_of_int.
  destruct (Z.to_int z) as [u|u]; [apply nilzero_uint_plain|].
  change (0 + placeholders (NilZero.string_of_uint u) = 0).
  now rewrite nilzero_uint_plain.
Qed.
End CountFacts.

(** Proof automation. *)

Ltac is_numeral n :=
  match n with
  | O => idtac
  | S ?m => is_numeral m
  end.

(** Evaluates [placeholders] on the literal pieces of a statement text. *)
Ltac count_literals :=
  repeat match goal with
         | |- context [Balance.placeholders ?s] =>
             let n := eval vm_compute in (Balance.placeholders s) in
             is_numeral n; change (Balance.placeholders s) with n
         end.

Ltac count_sql :=
  rewrite ?placeholders_app; count_literals.

(** Case analysis on the first computation of a sequence that succeeded. *)
Ltac bind_ok H x Hx :=
  match type of H with
  | mbind _ ?m = Ok _ =>
      destruct m as [x|?] eqn:Hx; cbn [mbind Res_bind bind] in H; [|discriminate H]
  end.

Section MySQLBalance.
Import Dialect MySQLDialect Balance.

Lemma escapeIdentifier_plain s :
  placeholders (escapeIdentifier s) = placeholders s.
Proof. unfold escapeIdentifier. count_sql. lia. Qed.

Lemma OperatorMap_plain op : placeholders (OperatorMap op) = 0.
Proof. destruct op; reflexivity. Qed.

Lemma placeholders_marks {A} (items : list A) :
  placeholders (join ", " (map (fun _ => "?") items)) = length items.
Proof.
  rewrite placeholders_join by reflexivity.
  induction items as [|x items IH]; [reflexivity|].
  cbn -[placeholders]. rewrite IH. reflexivity.
Qed.

Lemma balanced_empty : balanced emptyVH.
Proof. reflexivity. Qed.

Lemma Ok_inj {A} (a b : A) : Ok a = Ok b -> a = b.
Proof. now intros [= ->]. Qed.

Lemma balanced_mk sql params :
  placeholders sql = length params -> balanced {| prepare := sql; holders := params |}.
Proof. intros H. exact H. Qed.

Lemma createOperatorCondition_balanced key operator v r :
  placeholders key = 0 ->
  createOperatorCondition key operator v = Ok r -> balanced r.
Proof.
  intros Hkey. unfold createOperatorCondition.
  pose proof (escapeIdentifier_plain key) as Hesc. rewrite Hkey in Hesc.
  destruct (parseOperator operator) as [op|]; [|intros [= <-]; reflexivity].
  pose proof (OperatorMap_plain op) as Hop.
  destruct op; intros H;
    repeat match type of H with
           | match ?x with _ => _ end = _ => destruct x
           end;
    try discriminate; apply Ok_inj in H; subst r; try reflexivity; apply balanced_mk;
    rewrite ?placeholders_app, ?placeholders_marks, ?Hesc, ?Hop, ?length_map;
    count_literals; rewrite ?Nat.add_0_r; reflexivity.
Qed.

(** What [collect] gathers has as many placeholders as parameters when
    every member compiles to a balanced fragment and wrapping adds none. *)
Lemma collect_balanced {A} (f : A -> Res ValueHolders) wrap (l : list A) r :
  (forall x vh, In x l -> f x = Ok vh -> balanced vh) ->
  (forall x s, placeholders (wrap x s) = placeholders s) ->
  collect f wrap l = Ok r ->
  sum_list (map placeholders (fst r)) = length (snd r).
Proof.
  intros Hf Hwrap. revert r. induction l as [|x l IH]; intros r Hr; cbn in Hr.
  - injection Hr as <-. reflexivity.
  - destruct (f x) as [vh|e] eqn:Hx; [|discriminate]. cbn in Hr.
    destruct (collect f wrap l) as [rest|e] eqn:Hrest; [|discriminate]. cbn in Hr.
    injection Hr as <-.
    assert (IH' : sum_list (map placeholders rest.1) = length rest.2).
    { apply IH; [|reflexivity]. intros y vh' Hy. apply Hf. now right. }
    destruct (truthy (prepare vh)); [|exact IH'].
    cbn -[placeholders]. rewrite Hwrap, length_app, IH'.
    rewrite (Hf x vh (or_introl eq_refl) Hx). reflexivity.
Qed.

Lemma conditions_placeholders (conditions : list string) :
  placeholders (if decide (1 < length conditions)
                then "(" +:+ join " AND " conditions +:+ ")"
                else nth 0 conditions "")
  = sum_list (map placeholders conditions).
Proof.
  destruct conditions as [|a [|b l]]; [reflexivity| |].
  - destruct (decide _) as [Hn|_]; [cbn in Hn; lia|].
    change (placeholders a = placeholders a + 0). lia.
  - destruct (decide _) as [_|Hn]; [|cbn in Hn; lia].
    rewrite !placeholders_app, placeholders_join by reflexivity.
    count_literals. lia.
Qed.

Lemma createFilter_balanced key v r :
  placeholders key = 0 -> createFilter key v = Ok r -> balanced r.
Proof.
  intros Hkey. pose proof (escapeIdentifier_plain key) as Hesc. rewrite Hkey in Hesc.
  assert (Hobj : forall props,
    (r0 ← collect (fun kv => createOperatorCondition key kv.1 kv.2) (fun _ s => s) props;
     let conditions := r0.1 in
     if decide (length conditions = 0) then Ok emptyVH
     else Ok {| prepare := if decide (1 < length conditions)
                           then "(" +:+ join " AND " conditions +:+ ")"
                           else nth 0 conditions "";
                holders := r0.2 |}) = Ok r -> balanced r).
  { intros props H.
    destruct (collect _ _ props) as [r0|e] eqn:Hc; [|discriminate]. cbn in H.
    apply collect_balanced in Hc;
      [|intros x vh _; now apply createOperatorCondition_balanced|reflexivity].
    destruct (decide _); injection H as <-; [reflexivity|].
    apply balanced_mk. now rewrite conditions_placeholders. }
  unfold createFilter. destruct v; try apply Hobj;
    intros [= <-]; try reflexivity; apply balanced_mk;
    rewrite ?placeholders_app, ?Hesc; count_literals; reflexivity.
Qed.

Lemma createDataFilter_balanced key v r :
  placeholders key = 0 -> createDataFilter key v = Ok r -> balanced r.
Proof.
  intros Hkey. pose proof (escapeIdentifier_plain key) as Hesc. rewrite Hkey in Hesc.
  unfold createDataFilter. intros H.
  repeat match type of H with
         | match ?x with _ => _ end = _ => destruct x
         end;
    injection H as <-; try reflexivity; apply balanced_mk;
    rewrite ?placeholders_app, ?Hesc; count_literals; reflexivity.
Qed.
End MySQLBalance.

Section MySQLWhereBalance.
Import Dialect MySQLDialect Balance.

(** Induction on a descriptor with its [AND] / [OR] members. *)
Lemma Where_nested_ind (P : Where -> Prop) :
  P WNull ->
  (forall sql, P (WString sql)) ->
  (forall sql params, P (WArray sql params)) ->
  (forall fields AND OR,
      Forall P (default [] AND) -> Forall P (default [] OR) ->
      P (WObject fields AND OR)) ->
  forall w, P w.
Proof.
  intros HNull HString HArray HObject. fix IH 1.
  intros [| sql | sql params | fields AND OR];
    [exact HNull | apply HString | apply HArray | ].
  apply HObject.
  - destruct AND as [l|]; [|constructor]. cbn.
    induction l as [|w l IHl]; constructor; [apply IH|exact IHl].
  - destruct OR as [l|]; [|constructor]. cbn.
    induction l as [|w l IHl]; constructor; [apply IH|exact IHl].
Qed.

Lemma sum_placeholders_app a b :
  sum_list (map placeholders (a ++ b))
  = sum_list (map placeholders a) + sum_list (map placeholders b).
Proof.
  induction a as [|x a IH]; [reflexivity|].
  cbn -[placeholders]. rewrite IH. lia.
Qed.

Lemma bracket_placeholders s : placeholders (bracket s) = placeholders s.
Proof. unfold bracket. count_sql. lia. Qed.

(** One clause of [createLogicalWhere]: kept when its text is not empty. *)
Lemma kept_balanced (text : string) (vh : ValueHolders) :
  balanced vh -> placeholders text = placeholders (prepare vh) ->
  sum_list (map placeholders (if truthy (prepare vh) then [text] else []))
  = length (if truthy (prepare vh) then holders vh else []).
Proof.
  intros Hb Ht. destruct (truthy (prepare vh)); [|reflexivity].
  cbn -[placeholders]. rewrite Ht, Hb. lia.
Qed.

Lemma joined_balanced f wrap (l : list Where) sep vh :
  placeholders sep = 0 ->
  Forall (fun w => forall r, f w = Ok r -> balanced r) l ->
  (forall x s, placeholders (wrap x s) = placeholders s) ->
  (r ← collect f wrap l; Ok {| prepare := join sep r.1; holders := r.2 |}) = Ok vh ->
  balanced vh.
Proof.
  intros Hsep Hall Hwrap H.
  destruct (collect f wrap l) as [r|e] eqn:Hc; [|discriminate]. cbn in H.
  apply Ok_inj in H. subst vh. apply balanced_mk.
  rewrite placeholders_join by exact Hsep.
  eapply collect_balanced; [| |exact Hc]; [|exact Hwrap].
  intros x vh Hin. rewrite Forall_forall in Hall. apply Hall.
  now apply list_elem_of_In.
Qed.

Lemma createFieldConditions_balanced fields vh :
  plainKeys fields = true -> createFieldConditions fields = Ok vh -> balanced vh.
Proof.
  intros Hkeys H. unfold createFieldConditions in H.
  destruct (collect _ _ fields) as [r|e] eqn:Hc; [|discriminate]. cbn in H.
  apply Ok_inj in H. subst vh. apply balanced_mk.
  rewrite placeholders_join by reflexivity.
  eapply collect_balanced; [| |exact Hc]; [|reflexivity].
  intros kv vh Hin. apply createFilter_balanced.
  unfold plainKeys in Hkeys. rewrite forallb_forall in Hkeys.
  now apply plain_true, Hkeys.
Qed.

Lemma createWhereOf_balanced w :
  balancedWhere w = true -> forall vh, createWhereOf w = Ok vh -> balanced vh.
Proof.
  induction w as [| sql | sql params | fields AND OR IHand IHor] using Where_nested_ind;
    intros Hw vh H; cbn in H.
  - apply Ok_inj in H. now subst vh.
  - apply Ok_inj in H. subst vh. apply balanced_mk. now apply plain_true.
  - apply Ok_inj in H. subst vh. apply balanced_mk. now apply Nat.eqb_eq.
  - cbn in Hw. apply andb_prop in Hw as [Hw Hor]. apply andb_prop in Hw as [Hfields Hand].
    destruct (decide _); [apply Ok_inj in H; now subst vh|].
    assert (HA : Forall (fun w => forall r, createWhereOf w = Ok r -> balanced r)
                   (default [] AND)).
    { destruct AND as [l|]; [|constructor]. cbn in *.
      rewrite forallb_forall in Hand. rewrite Forall_forall in IHand |- *.
      intros w Hin. apply IHand; [exact Hin|]. now apply Hand, list_elem_of_In. }
    assert (HO : Forall (fun w => forall r, createWhereOf w = Ok r -> balanced r)
                   (default [] OR)).
    { destruct OR as [l|]; [|constructor]. cbn in *.
      rewrite forallb_forall in Hor. rewrite Forall_forall in IHor |- *.
      intros w Hin. apply IHor; [exact Hin|]. now apply Hor, list_elem_of_In. }
    clear IHand IHor Hand Hor. unfold createLogicalWhere in H.
    bind_ok H f Hf.
    assert (Hfb : balanced f).
    { destruct fields; [apply Ok_inj in Hf; now subst f|].
      now apply (createFieldConditions_balanced _ _ Hfields). }
    bind_ok H a Ha.
    assert (Hab : balanced a).
    { destruct AND as [[|w l]|]; try (apply Ok_inj in Ha; now subst a).
      unfold createAndConditions in Ha.
      eapply joined_balanced; [| | |exact Ha]; [reflexivity|exact HA|].
      intros x s. cbv beta.
      destruct (andNeedsBracket x); [apply bracket_placeholders|reflexivity]. }
    bind_ok H o Ho.
    assert (Hob : balanced o).
    { destruct OR as [[|w l]|]; try (apply Ok_inj in Ho; now subst o).
      unfold createOrConditions in Ho.
      eapply joined_balanced; [| | |exact Ho]; [reflexivity|exact HO|].
      intros x s. cbv beta. destruct (orNeedsBracket x); [apply bracket_placeholders|reflexivity]. }
    apply Ok_inj in H. subst vh. apply balanced_mk.
    rewrite placeholders_join by reflexivity.
    rewrite !sum_placeholders_app, !length_app.
    rewrite (kept_balanced _ f Hfb eq_refl), (kept_balanced _ a Hab eq_refl).
    rewrite (kept_balanced _ o Hob); [reflexivity|].
    destruct (_ ++ _); [reflexivity|apply bracket_placeholders].
Qed.

Lemma createWhere_balanced w vh :
  opt balancedWhere w = true -> createWhere w = Ok vh -> balanced vh.
Proof.
  destruct w as [w|]; cbn; intros Hw H.
  - now apply (createWhereOf_balanced w).
  - apply Ok_inj in H. now subst vh.
Qed.
End MySQLWhereBalance.

Section MySQLClauseBalance.
Import Dialect MySQLDialect Balance.

Lemma sum_placeholders_zero (l : list string) :
  Forall (fun s => placeholders s = 0) l -> sum_list (map placeholders l) = 0.
Proof.
  induction 1 as [|s l Hs _ IH]; [reflexivity|].
  cbn -[placeholders]. rewrite Hs, IH. reflexivity.
Qed.

Lemma createOrder_plain order :
  opt plainKeys order = true -> placeholders (createOrder order) = 0.
Proof.
  destruct order as [entries|]; [|reflexivity]. cbn [opt createOrder]. intros Hkeys.
  rewrite placeholders_join by reflexivity. apply sum_placeholders_zero.
  unfold plainKeys in Hkeys. rewrite forallb_forall in Hkeys.
  induction entries as [|kv entries IH]; [constructor|].
  cbn [flat_map]. apply Forall_app. split.
  - assert (Hk : placeholders (fst kv) = 0) by (apply plain_true, Hkeys; now left).
    destruct (snd kv); try constructor.
    destruct (String.eqb _ "ASC" || String.eqb _ "DESC") eqn:Hd; constructor; [|constructor].
    rewrite !placeholders_app, escapeIdentifier_plain, Hk.
    apply orb_prop in Hd as [Hd|Hd]; apply String.eqb_eq in Hd; rewrite Hd; reflexivity.
  - apply IH. intros x Hx. apply Hkeys. now right.
Qed.

Lemma validType_plain type :
  existsb (String.eqb type) validTypes = true -> placeholders type = 0.
Proof.
  unfold validTypes. cbn [existsb]. rewrite !orb_true_iff, !String.eqb_eq.
  intros [->|[->|[->|[->|[->|H]]]]]; try reflexivity. discriminate.
Qed.

Lemma joinPart_plain tableName joinDef s :
  plain tableName = true ->
  match joinDef with
  | JoinOn cond => plain cond
  | JoinCfg cfg => plain (default "" (j_on cfg)) && forallb plain (default [] (j_using cfg))
  end = true ->
  joinPart tableName joinDef = Ok s -> placeholders s = 0.
Proof.
  intros Ht%plain_true Hdef. unfold joinPart.
  pose proof (escapeIdentifier_plain tableName) as Hesc. rewrite Ht in Hesc.
  destruct joinDef as [cond|cfg].
  - apply plain_true in Hdef. intros H. apply Ok_inj in H. subst s.
    rewrite !placeholders_app, Hesc, Hdef. reflexivity.
  - apply andb_prop in Hdef as [Hon Husing]. apply plain_true in Hon.
    destruct (negb (existsb _ validTypes)) eqn:Hvalid; [discriminate|].
    apply negb_false_iff, validType_plain in Hvalid.
    destruct (String.eqb _ "CROSS").
    + intros H. apply Ok_inj in H. subst s.
      rewrite !placeholders_app, Hesc, Hvalid. reflexivity.
    + destruct (j_using cfg) as [[|u us]|]; [discriminate| |].
      * intros H. apply Ok_inj in H. subst s.
        rewrite !placeholders_app, Hesc, Hvalid, placeholders_join by reflexivity.
        rewrite sum_placeholders_zero; [reflexivity|].
        cbn [default] in Husing. unfold id in Husing. rewrite forallb_forall in Husing.
        apply Forall_forall. intros x Hx%list_elem_of_In.
        apply in_map_iff in Hx as (y & <- & Hy).
        rewrite escapeIdentifier_plain. now apply plain_true, Husing.
      * destruct (j_on cfg) as [on|]; [|discriminate]. cbn [default] in Hon. unfold id in Hon.
        destruct (truthy on); [|discriminate].
        intros H. apply Ok_inj in H. subst s.
        rewrite !placeholders_app, Hesc, Hvalid, Hon. reflexivity.
Qed.

Lemma createJoin_plain j s :
  opt plainJoin j = true -> createJoin j = Ok s -> placeholders s = 0.
Proof.
  destruct j as [defs|]; [|intros _ H; apply Ok_inj in H; now subst s].
  cbn [opt]. unfold plainJoin, createJoin. intros Hdefs.
  destruct defs as [|d defs]; [intros H; apply Ok_inj in H; now subst s|].
  intros H. bind_ok H parts Hparts. apply Ok_inj in H. subst s.
  rewrite placeholders_join by reflexivity. apply sum_placeholders_zero.
  revert parts Hparts. generalize (d :: defs) Hdefs. clear.
  induction l as [|kv l IH]; intros Hl parts Hparts; cbn in Hparts.
  - apply Ok_inj in Hparts. subst parts. constructor.
  - cbn in Hl. apply andb_prop in Hl as [Hkv Hl]. apply andb_prop in Hkv as [Ht Hd].
    destruct (joinPart kv.1 kv.2) as [s|] eqn:Hs; [|discriminate].
    destruct (mapRes _ l) as [rest|] eqn:Hrest; [|discriminate].
    apply Ok_inj in Hparts. subst parts. constructor.
    + exact (joinPart_plain _ _ _ Ht Hd Hs).
    + now apply IH.
Qed.

Lemma split_placeholders s :
  sum_list (map placeholders (split "." s)) = placeholders s.
Proof.
  induction s as [|c s IH]; [reflexivity|]. cbn [split].
  destruct (Ascii.eqb c ".") eqn:Hc.
  - apply Ascii.eqb_eq in Hc. subst c. cbn -[placeholders]. rewrite IH. reflexivity.
  - destruct (split "." s) as [|h t].
    + cbn in IH. change (placeholders (String c s)) with
        ((if Ascii.eqb c "?" then 1 else 0) + placeholders s).
      rewrite <- IH. cbn. lia.
    + cbn -[placeholders] in IH |- *.
      change (placeholders (String c h)) with
        ((if Ascii.eqb c "?" then 1 else 0) + placeholders h).
      change (placeholders (String c s)) with
        ((if Ascii.eqb c "?" then 1 else 0) + placeholders s).
      lia.
Qed.

Lemma escaped_placeholders (l : list string) :
  sum_list (map placeholders (map escapeIdentifier l)) = sum_list (map placeholders l).
Proof.
  induction l as [|x l IH]; [reflexivity|].
  cbn -[placeholders]. now rewrite escapeIdentifier_plain, IH.
Qed.

Lemma escapeDotted_placeholders field :
  placeholders (escapeDotted field) = placeholders field.
Proof.
  unfold escapeDotted. destruct (includes "." field).
  - rewrite placeholders_join by reflexivity.
    now rewrite escaped_placeholders, split_placeholders.
  - apply escapeIdentifier_plain.
Qed.

Lemma createGroupBy_plain g :
  opt plainGroupBy g = true -> placeholders (createGroupBy g) = 0.
Proof.
  destruct g as [[field|fields]|]; [| |reflexivity]; cbn [opt plainGroupBy createGroupBy].
  - intros Hf%plain_true. destruct (truthy field); [|reflexivity].
    now rewrite escapeDotted_placeholders.
  - intros Hf. destruct fields as [|f fields]; [reflexivity|].
    rewrite placeholders_join by reflexivity. apply sum_placeholders_zero.
    rewrite forallb_forall in Hf. apply Forall_forall. intros x Hx%list_elem_of_In.
    apply in_map_iff in Hx as (y & <- & Hy).
    rewrite escapeDotted_placeholders. now apply plain_true, Hf.
Qed.

Lemma createHaving_balanced h vh :
  opt balancedHaving h = true -> createHaving h = Ok vh -> balanced vh.
Proof.
  destruct h as [[| sql | sql params | fields]|]; cbn [opt balancedHaving createHaving];
    intros Hh H.
  - apply Ok_inj in H. now subst vh.
  - apply Ok_inj in H. subst vh. apply balanced_mk. now apply plain_true.
  - apply Ok_inj in H. subst vh. apply balanced_mk. now apply Nat.eqb_eq.
  - bind_ok H r Hr. apply Ok_inj in H. subst vh. apply balanced_mk.
    assert (Hsum : sum_list (map placeholders r.1) = length r.2).
    { eapply collect_balanced; [| |exact Hr]; [|reflexivity].
      intros kv vh Hin. apply createFilter_balanced.
      rewrite forallb_forall in Hh. now apply plain_true, Hh. }
    rewrite <- Hsum. destruct (fst r) as [|c cs] eqn:Hc; [reflexivity|].
    now rewrite placeholders_join by reflexivity.
  - apply Ok_inj in H. now subst vh.
Qed.

Lemma buildLimitOffset_plain limit offset :
  placeholders (buildLimitOffset limit offset) = 0.
Proof.
  unfold buildLimitOffset. destruct (0 <? offset)%Z;
    rewrite !placeholders_app, !Z_to_string_plain; reflexivity.
Qed.

#[global] Instance mysql_balanced : BalancedDialect MySQLDialect.dialect.
Proof.
  split.
  - exact escapeIdentifier_plain.
  - reflexivity.
  - exact createWhere_balanced.
  - intros k v vh Hk%plain_true. now apply createDataFilter_balanced.
  - exact createOrder_plain.
  - exact createJoin_plain.
  - exact createGroupBy_plain.
  - exact createHaving_balanced.
  - exact buildLimitOffset_plain.
Qed.
End MySQLClauseBalance.

Section BuilderBalance.
Import Dialect Balance.
Context `{D : BaseDialect} `{!BalancedDialect D}.

Lemma clause_placeholders kw text :
  placeholders kw = 0 -> placeholders (clause kw text) = placeholders text.
Proof.
  intros Hkw. unfold clause. destruct (truthy text) eqn:Ht.
  - now rewrite placeholders_app, Hkw.
  - now rewrite (placeholders_truthy _ Ht).
Qed.

Lemma kept_holders vh :
  balanced vh ->
  length (if truthy (prepare vh) then holders vh else []) = placeholders (prepare vh).
Proof.
  intros Hb. destruct (truthy (prepare vh)) eqn:Ht; [now rewrite Hb|].
  now rewrite (placeholders_truthy _ Ht).
Qed.

Lemma limitClause_plain limit : placeholders (limitClause limit) = 0.
Proof.
  unfold limitClause. destruct (positiveLimit limit); [|reflexivity].
  now rewrite placeholders_app, Z_to_string_plain.
Qed.

Lemma truthy_or_empty s : placeholders (if truthy s then s else "") = placeholders s.
Proof. destruct (truthy s) eqn:Ht; [reflexivity|now rewrite (placeholders_truthy _ Ht)]. Qed.

Lemma buildSelect_balanced params vh :
  wfSelect params = true -> buildSelect params = Ok vh -> balanced vh.
Proof.
  unfold wfSelect. rewrite !andb_true_iff.
  intros [[[[[[Ht Hf] Hw] Ho] Hj] Hg] Hh] H. unfold buildSelect in H.
  bind_ok H joinStr Hjoin. bind_ok H whereResult Hwhere. bind_ok H havingResult Hhaving.
  apply Ok_inj in H. subst vh. apply balanced_mk.
  apply plain_true in Ht.
  pose proof (join_plain _ _ Hj Hjoin) as Hjp.
  pose proof (where_balanced _ _ Hw Hwhere) as Hwb.
  pose proof (having_balanced _ _ Hh Hhaving) as Hhb.
  rewrite !placeholders_app, !clause_placeholders by reflexivity.
  rewrite truthy_or_empty, escape_plain, Ht, Hjp, (groupBy_plain _ Hg), (order_plain _ Ho).
  rewrite length_app, !kept_holders by assumption.
  assert (Hfields : placeholders (default "*" (s_fields params)) = 0).
  { destruct (s_fields params); [now apply plain_true|reflexivity]. }
  rewrite Hfields.
  assert (Hlimit : placeholders match positiveLimit (s_limit params) with
                                | Some limit =>
                                    buildLimitOffset limit (default 0%Z (s_offset params))
                                | None => ""
                                end = 0).
  { destruct (positiveLimit _); [apply limit_plain|reflexivity]. }
  rewrite Hlimit. count_literals. lia.
Qed.

Lemma rowPlaceholders_sum fields : forall n,
  sum_list (map placeholders (rowPlaceholders n fields)) = length fields.
Proof.
  induction fields as [|f fields IH]; intros n; [reflexivity|].
  cbn -[placeholders]. now rewrite placeholder_one, IH.
Qed.

Lemma insertRows_balanced fields data : forall n,
  sum_list (map placeholders (fst (insertRows n fields data)))
  = length (snd (insertRows n fields data)).
Proof.
  induction data as [|row data IH]; intros n; [reflexivity|].
  cbn -[placeholders]. rewrite IH, length_app, length_map.
  rewrite !placeholders_app, placeholders_join, rowPlaceholders_sum by reflexivity.
  count_literals. lia.
Qed.

Lemma escaped_fields_plain (fields : list string) :
  forallb plain fields = true ->
  sum_list (map placeholders (map escapeIdentifier fields)) = 0.
Proof.
  induction fields as [|f fields IH]; [reflexivity|]. cbn -[placeholders].
  intros [Hf Hfs]%andb_prop. apply plain_true in Hf.
  now rewrite escape_plain, Hf, IH.
Qed.

Lemma buildInsert_balanced params vh :
  wfInsert params = true -> buildInsert params = Ok vh -> balanced vh.
Proof.
  unfold wfInsert, buildInsert. intros [Ht Hk]%andb_prop.
  destruct (i_data params) as [|first rest]; [discriminate|].
  intros H. apply Ok_inj in H. subst vh. apply balanced_mk.
  apply plain_true in Ht. cbn [head opt] in Hk.
  rewrite !placeholders_app, !placeholders_join by reflexivity.
  rewrite insertRows_balanced, escape_plain, Ht, escaped_fields_plain.
  - count_literals. lia.
  - unfold plainKeys in Hk. clear -Hk. induction first as [|kv first IH]; [reflexivity|].
    cbn in Hk |- *. apply andb_prop in Hk as [-> Hk]. now apply IH.
Qed.

Lemma assignments_balanced data r :
  plainKeys data = true ->
  collect (fun kv => createDataFilter (fst kv) (snd kv)) (fun _ s => s) data = Ok r ->
  sum_list (map placeholders (fst r)) = length (snd r).
Proof.
  intros Hkeys Hr. eapply collect_balanced; [| |exact Hr]; [|reflexivity].
  intros kv vh Hin. apply dataFilter_balanced.
  unfold plainKeys in Hkeys. rewrite forallb_forall in Hkeys. now apply Hkeys.
Qed.

Lemma buildUpdate_balanced params vh :
  wfUpdate params = true -> buildUpdate params = Ok vh -> balanced vh.
Proof.
  unfold wfUpdate. rewrite !andb_true_iff. intros [[[Ht Hd] Hw] Ho] H.
  unfold buildUpdate in H. bind_ok H r Hr.
  pose proof (assignments_balanced _ _ Hd Hr) as Hsum.
  destruct (fst r) as [|p parts] eqn:Hparts; [discriminate|].
  bind_ok H whereResult Hwhere. apply Ok_inj in H. subst vh. apply balanced_mk.
  apply plain_true in Ht. pose proof (where_balanced _ _ Hw Hwhere) as Hwb.
  rewrite !placeholders_app, !clause_placeholders, placeholders_join by reflexivity.
  rewrite Hsum, escape_plain, Ht, (order_plain _ Ho), limitClause_plain.
  rewrite length_app, kept_holders by assumption. count_literals. lia.
Qed.

Lemma buildDelete_balanced params vh :
  wfDelete params = true -> buildDelete params = Ok vh -> balanced vh.
Proof.
  unfold wfDelete. rewrite !andb_true_iff. intros [[Ht Hw] Ho] H.
  unfold buildDelete in H. bind_ok H whereResult Hwhere.
  apply Ok_inj in H. subst vh. apply balanced_mk.
  apply plain_true in Ht. pose proof (where_balanced _ _ Hw Hwhere) as Hwb.
  rewrite !placeholders_app, !clause_placeholders by reflexivity.
  rewrite escape_plain, Ht, (order_plain _ Ho), limitClause_plain.
  rewrite kept_holders by assumption. count_literals. lia.
Qed.

Lemma buildCount_balanced params vh :
  wfCount params = true -> buildCount params = Ok vh -> balanced vh.
Proof.
  unfold wfCount. rewrite !andb_true_iff. intros [[[[Ht Hw] Hj] Hg] Hh] H.
  unfold buildCount in H.
  bind_ok H joinStr Hjoin. bind_ok H whereResult Hwhere. bind_ok H havingResult Hhaving.
  apply Ok_inj in H. subst vh. apply balanced_mk.
  apply plain_true in Ht.
  pose proof (join_plain _ _ Hj Hjoin) as Hjp.
  pose proof (where_balanced _ _ Hw Hwhere) as Hwb.
  pose proof (having_balanced _ _ Hh Hhaving) as Hhb.
  rewrite !placeholders_app, !clause_placeholders by reflexivity.
  rewrite truthy_or_empty, !escape_plain, Ht, Hjp, (groupBy_plain _ Hg).
  rewrite length_app, !kept_holders by assumption. count_literals. lia.
Qed.

Lemma buildExists_balanced params vh :
  wfExists params = true -> buildExists params = Ok vh -> balanced vh.
Proof.
  unfold wfExists. intros [Ht Hw]%andb_prop H.
  unfold buildExists in H. bind_ok H whereResult Hwhere.
  apply Ok_inj in H. subst vh. apply balanced_mk.
  apply plain_true in Ht. pose proof (where_balanced _ _ Hw Hwhere) as Hwb.
  rewrite !placeholders_app, !clause_placeholders by reflexivity.
  rewrite escape_plain, Ht, kept_holders by assumption. count_literals. lia.
Qed.
End BuilderBalance.

Section UpsertBalance.
Import Dialect MySQLDialect Balance.

Lemma assignments_sum (l : list (string * Value)) :
  plainKeys l = true ->
  sum_list (map placeholders (map (fun kv => escapeIdentifier (fst kv) +:+ " = ?") l))
  = length l.
Proof.
  induction l as [|kv l IH]; [reflexivity|]. cbn -[placeholders].
  intros [Hk Hl]%andb_prop. apply plain_true in Hk.
  rewrite placeholders_app, escapeIdentifier_plain, Hk, (IH Hl). reflexivity.
Qed.

Lemma escaped_keys_plain (l : list (string * Value)) :
  plainKeys l = true ->
  sum_list (map placeholders (map (fun kv => escapeIdentifier (fst kv)) l)) = 0.
Proof.
  induction l as [|kv l IH]; [reflexivity|]. cbn -[placeholders].
  intros [Hk Hl]%andb_prop. apply plain_true in Hk.
  now rewrite escapeIdentifier_plain, Hk, (IH Hl).
Qed.

Lemma plainKeys_filter (f : string * Value -> bool) l :
  plainKeys l = true -> plainKeys (List.filter f l) = true.
Proof.
  unfold plainKeys. rewrite !forallb_forall. intros H x Hx.
  apply filter_In in Hx as [Hx _]. now apply H.
Qed.

Lemma buildUpsert_balanced params vh :
  wfUpsert params = true -> buildUpsert params = Ok vh -> balanced vh.
Proof.
  unfold wfUpsert. rewrite !andb_true_iff. intros [[Ht Hd] Hu] H.
  unfold buildUpsert in H. apply Ok_inj in H. subst vh. apply balanced_mk.
  apply plain_true in Ht.
  set (updated := List.filter _ (default (u_data params) (u_updateData params))).
  assert (Hupd : plainKeys updated = true).
  { apply plainKeys_filter. destruct (u_updateData params); assumption. }
  rewrite !placeholders_app, placeholders_marks, placeholders_join by reflexivity.
  rewrite escapeIdentifier_plain, Ht, (escaped_keys_plain _ Hd), !length_map, length_app.
  rewrite !length_map.
  assert (Hon : placeholders match map (fun kv => escapeIdentifier kv.1 +:+ " = ?") updated with
                             | [] => ""
                             | _ :: _ => " ON DUPLICATE KEY UPDATE "
                                 +:+ join ", " (map (fun kv => escapeIdentifier kv.1 +:+ " = ?") updated)
                             end = length updated).
  { destruct updated as [|kv l] eqn:Hl; [reflexivity|]. rewrite <- Hl in *.
    destruct (map _ updated) eqn:Hm; [rewrite Hl in Hm; discriminate|]. rewrite <- Hm.
    rewrite placeholders_app, placeholders_join by reflexivity.
    now rewrite (assignments_sum _ Hupd). }
  rewrite Hon. count_literals. lia.
Qed.
End UpsertBalance.

(** C3 (as the compiler implements it).  A Compiled Statement has as many
    placeholders as parameters whenever the descriptor it was compiled from
    is well formed: table, column and other identifiers and raw fragments
    contain no placeholder, and a fragment that comes with parameters has
    exactly one placeholder per parameter.  Raw fragments and their
    parameters are copied as they are. *)
Theorem compiled_statement_balanced :
  (forall params vh,
      Balance.wfSelect params = true ->
      Dialect.buildSelect (D := MySQLDialect.dialect) params = Ok vh -> Balance.balanced vh) /\
  (forall params vh,
      Balance.wfInsert params = true ->
      Dialect.buildInsert (D := MySQLDialect.dialect) params = Ok vh -> Balance.balanced vh) /\
  (forall params vh,
      Balance.wfUpdate params = true ->
      Dialect.buildUpdate (D := MySQLDialect.dialect) params = Ok vh -> Balance.balanced vh) /\
  (forall params vh,
      Balance.wfDelete params = true ->
      Dialect.buildDelete (D := MySQLDialect.dialect) params = Ok vh -> Balance.balanced vh) /\
  (forall params vh,
      Balance.wfCount params = true ->
      Dialect.buildCount (D := MySQLDialect.dialect) params = Ok vh -> Balance.balanced vh) /\
  (forall params vh,
      Balance.wfExists params = true ->
      Dialect.buildExists (D := MySQLDialect.dialect) params = Ok vh -> Balance.balanced vh) /\
  (forall params vh,
      Balance.wfUpsert params = true ->
      MySQLDialect.buildUpsert params = Ok vh -> Balance.balanced vh).
Proof.
  repeat split.
  - apply buildSelect_balanced.
  - apply buildInsert_balanced.
  - apply buildUpdate_balanced.
  - apply buildDelete_balanced.
  - apply buildCount_balanced.
  - apply buildExists_balanced.
  - apply buildUpsert_balanced.
Qed.

Lemma compiled_statement_balanced_witness : Balance.balanced adultsStatement.
Proof.
  exact (proj1 compiled_statement_balanced adultsQuery adultsStatement eq_refl eq_refl).
Defined.

(** C3 as stated fails on the raw forms: a raw fragment is compiled with an
    empty parameter list whatever it contains, and a fragment with
    parameters is compiled with the parameters it came with. *)
Lemma raw_fragment_unbalanced :
  (exists vh,
      Dialect.buildSelect (D := MySQLDialect.dialect)
        (rawQuery (Dialect.WString "age > ?")) = Ok vh /\
      Dialect.prepare vh = "SELECT * FROM `users` WHERE age > ?" /\
      Balance.placeholders (Dialect.prepare vh) = 1 /\
      length (Dialect.holders vh) = 0) /\
  (exists vh,
      Dialect.buildSelect (D := MySQLDialect.dialect)
        (rawQuery (Dialect.WArray "a = ? AND b = ?" (Some [VNum 1]))) = Ok vh /\
      Balance.placeholders (Dialect.prepare vh) = 2 /\
      length (Dialect.holders vh) = 1) /\
  ~ (forall params vh,
        Dialect.buildSelect (D := MySQLDialect.dialect) params = Ok vh ->
        Balance.balanced vh).
Proof.
  split; [|split].
  - eexists. repeat split; reflexivity.
  - eexists. repeat split; reflexivity.
  - intros H. specialize (H (rawQuery (Dialect.WString "age > ?")) _ eq_refl).
    discriminate H.
Qed.

(** ** Connection driver: the retry loop in general *)

Section RetryFacts.
Import Driver.
Context {T : Type}.
Variable operation : nat -> Res T.

Lemma attempts_cons_attempt n evs : attempts (Attempt n :: evs) = S (attempts evs).
Proof. reflexivity. Qed.

Lemma attempts_cons_sleep ms evs : attempts (Sleep ms :: evs) = attempts evs.
Proof. reflexivity. Qed.

Lemma recreatePool_trace d :
  snd (recreatePool d) = [] \/ snd (recreatePool d) = [Rebuild].
Proof. unfold recreatePool. destruct (rebuildLock d); auto. Qed.

(** What one run of the loop does: either it is not entered, or its
    attempts are numbered consecutively from [attempt], all but the last
    failed with a retryable error, and the last one decides the outcome;
    a retryable error ends the loop only at the third attempt or when no
    iteration is left. *)
Lemma retryLoop_outcome remaining :
  forall attempt errors lastError d,
    let '(r, _, evs) := retryLoop operation remaining attempt errors lastError d in
    match attempts evs with
    | 0 => remaining = 0 /\ r = Throw lastError
    | S n =>
        S n <= remaining /\ r = operation (attempt + n) /\
        (forall k, attempt <= k < attempt + n -> retryable operation k) /\
        (retryable operation (attempt + n) -> S n = remaining \/ attempt + n = 3)
    end.
Proof.
  induction remaining as [|remaining IH]; intros attempt errors lastError d.
  - cbn. auto.
  - cbn [retryLoop].
    set (pre := if isPoolDead d && (1 <? attempt) then recreatePool d else (d, [])).
    assert (Hpre : attempts (snd pre) = 0).
    { subst pre. destruct (isPoolDead d && (1 <? attempt)); [|reflexivity].
      apply recreatePool_attempts. }
    destruct pre as [d1 ev1]. cbn [snd] in Hpre.
    assert (Hlast : forall evs, attempts (ev1 ++ Attempt attempt :: evs) = S (attempts evs)).
    { intros evs. now rewrite attempts_app, Hpre, attempts_cons_attempt. }
    destruct (operation attempt) as [v|error] eqn:Hop.
    { rewrite (Hlast []). change (attempts []) with 0.
      rewrite Nat.add_0_r. split; [lia|]. split; [now rewrite Hop|].
      split; [intros k Hk; lia|]. intros (e & He & _). congruence. }
    destruct (isConnectionError error) eqn:Hconn; cbn [negb].
    2:{ rewrite (Hlast []). change (attempts []) with 0.
        rewrite Nat.add_0_r. split; [lia|]. split; [now rewrite Hop|].
        split; [intros k Hk; lia|]. intros (e & He & He'). congruence. }
    destruct (attempt =? 3) eqn:Hthree.
    { rewrite (Hlast []). change (attempts []) with 0.
      rewrite Nat.add_0_r. split; [lia|]. split; [now rewrite Hop|].
      split; [intros k Hk; lia|]. intros _. right. now apply Nat.eqb_eq. }
    match goal with
    | |- context [retryLoop operation remaining ?a ?e ?l ?d'] =>
        specialize (IH a e l d');
        destruct (retryLoop operation remaining a e l d') as [[r d''] ev2]
    end.
    change (ev1 ++ [Attempt attempt; Sleep (if attempt =? 1 then 100%Z else 1000%Z)] ++ ev2)
      with (ev1 ++ Attempt attempt
              :: (Sleep (if attempt =? 1 then 100%Z else 1000%Z) :: ev2)).
    rewrite Hlast, attempts_cons_sleep.
    destruct (attempts ev2) as [|n].
    + destruct IH as [-> ->]. rewrite Nat.add_0_r. split; [lia|].
      split; [now rewrite Hop|]. split; [intros k Hk; lia|]. auto.
    + destruct IH as (Hle & Hr & Hfail & Hend). split; [lia|].
      split; [rewrite Hr; f_equal; lia|]. split.
      * intros k Hk. destruct (decide (k = attempt)) as [->|Hne].
        -- exists error. auto.
        -- apply Hfail. lia.
      * replace (attempt + S n) with (S attempt + n) by lia.
        intros Hre. destruct (Hend Hre); [left|right]; lia.
Qed.

(** The loop as [retryOnConnectionError] enters it. *)
Lemma retryLoop_from_start d :
  let '(r, _, evs) := retryLoop operation 3 1 0 (Error "") d in
  1 <= attempts evs <= 3 /\
  r = operation (attempts evs) /\
  (forall k, 1 <= k < attempts evs -> retryable operation k) /\
  (retryable operation (attempts evs) -> attempts evs = 3).
Proof.
  pose proof (retryLoop_outcome 3 1 0 (Error "") d) as H.
  destruct (retryLoop operation 3 1 0 (Error "") d) as [[r d'] evs].
  destruct (attempts evs) as [|n]; [destruct H; discriminate|].
  destruct H as (Hle & Hr & Hfail & Hend). split; [lia|].
  split; [exact Hr|]. split; [intros k Hk; apply Hfail; lia|].
  intros Hre. destruct (Hend Hre); lia.
Qed.

(** X1. Whatever the operation does, the value a driver call returns or
    the exception it throws is the outcome of its last attempt; the
    attempts are numbered 1, 2, 3 without gaps, and every attempt before
    the last failed with a retryable connection error.  Outside a
    transaction the call gives up on a retryable error only at the third
    attempt. *)
Theorem retry_outcome_is_last_attempt d :
  let '(r, _, evs) := retryOnConnectionError operation d in
  1 <= attempts evs <= 3 /\
  r = operation (attempts evs) /\
  (forall k, 1 <= k < attempts evs -> retryable operation k) /\
  (connection d = false -> retryable operation (attempts evs) -> attempts evs = 3).
Proof.
  unfold retryOnConnectionError. destruct (connection d).
  - change (attempts [Attempt 1]) with 1. split; [lia|]. split; [reflexivity|].
    split; [intros k Hk; lia|discriminate].
  - pose proof (retryLoop_from_start d) as H.
    destruct (retryLoop operation 3 1 0 (Error "") d) as [[r d'] evs]. tauto.
Qed.

(** X2. A call is retried only outside a transaction and only after a
    retryable connection error; an operation that fails with any other
    error is attempted once, and the driver is left as it was. *)
Theorem retry_only_on_connection_error d :
  (1 < attempts (snd (retryOnConnectionError operation d)) ->
   connection d = false /\ retryable operation 1) /\
  (forall e, operation 1 = Throw e -> isConnectionError e = false ->
             retryOnConnectionError operation d = (Throw e, d, [Attempt 1])).
Proof.
  split.
  - unfold retryOnConnectionError. destruct (connection d).
    + change (attempts (snd (operation 1, d, [Attempt 1]))) with 1. lia.
    + pose proof (retryLoop_from_start d) as H.
      destruct (retryLoop operation 3 1 0 (Error "") d) as [[r d'] evs].
      cbn [snd]. intros Hmany. split; [reflexivity|]. apply H. lia.
  - intros e Hop Hconn. unfold retryOnConnectionError.
    destruct (connection d); [now rewrite Hop|].
    cbn. rewrite andb_false_r, Hop, Hconn. reflexivity.
Qed.

(** The delays between attempts are 100 ms and then 1000 ms, and a pool
    rebuild can only precede a second or third attempt. *)
Lemma retryLoop_backoff d :
  let '(_, _, evs) := retryLoop operation 3 1 0 (Error "") d in
  sleeps evs = take (attempts evs - 1) [100%Z; 1000%Z] /\
  rebuilds evs <= attempts evs - 1.
Proof.
  cbn. rewrite andb_false_r.
  destruct (operation 1) as [v1|e1]; [split; [reflexivity|vm_compute; lia]|].
  destruct (isConnectionError e1); cbn; [|split; [reflexivity|vm_compute; lia]].
  destruct (recreatePool_trace d) as [Hre|Hre];
    destruct (isPoolDead d); cbn;
    try (destruct (recreatePool d) as [d1 ev1]; cbn in Hre; subst ev1);
    (destruct (operation 2) as [v2|e2]; [split; [reflexivity|vm_compute; lia]|]);
    (destruct (isConnectionError e2); cbn; [|split; [reflexivity|vm_compute; lia]]).
  all: match goal with
       | |- context [recreatePool ?d'] =>
           destruct (recreatePool_trace d') as [Hre'|Hre'];
           destruct (recreatePool d') as [d2 ev2]; cbn in Hre'; subst ev2
       end.
  all: destruct (operation 3) as [v3|e3]; [split; [reflexivity|vm_compute; lia]|].
  all: destruct (isConnectionError e3); cbn; split; (reflexivity || (vm_compute; lia)).
Qed.

(** X3. Between attempts a call sleeps 100 ms and then 1000 ms, so never
    more than 1100 ms in all, and it rebuilds the pool at most once before
    each retry, so never more than twice. *)
Theorem retry_backoff_schedule d :
  let '(_, _, evs) := retryOnConnectionError operation d in
  sleeps evs = take (attempts evs - 1) [100%Z; 1000%Z] /\
  (slept evs <= 1100)%Z /\
  rebuilds evs <= attempts evs - 1 /\
  rebuilds evs <= 2.
Proof.
  unfold retryOnConnectionError. destruct (connection d).
  - split; [reflexivity|]. split; [vm_compute; discriminate|].
    split; vm_compute; lia.
  - pose proof (retryLoop_backoff d) as H.
    pose proof (retryLoop_from_start d) as Hb.
    destruct (retryLoop operation 3 1 0 (Error "") d) as [[r d'] evs].
    destruct H as [Hs Hr]. split; [exact Hs|]. unfold slept. rewrite Hs.
    destruct Hb as [Hb _].
    destruct (attempts evs) as [|[|[|[|n]]]]; cbn; repeat split; cbn in Hr; lia.
Qed.

End RetryFacts.

Section DriverCallFacts.
Import Driver.

(** X5. [execute] answers with a header that one of its attempts
    produced, and never reports an insert identity that is not positive:
    a header without an auto-increment value (0) is passed on as
    [undefined]. *)
Theorem execute_insertId_positive executor d h :
  fst (fst (execute executor d)) = Ok h ->
  (exists n header, 1 <= n <= 3 /\ executor n = Ok header /\
                    Table.h_affectedRows h = fst header /\
                    Table.h_insertId h =
                      if (0 <? snd header)%Z then Some (snd header) else None) /\
  (forall i, Table.h_insertId h = Some i -> (0 < i)%Z).
Proof.
  unfold execute. intros Hok.
  set (operation := fun n => header ← executor n; Ok (resultHeader header)) in *.
  assert (Hlast : exists n, 1 <= n <= 3 /\ operation n = Ok h).
  { unfold retryOnConnectionError in Hok. destruct (connection d).
    - exists 1. split; [lia|exact Hok].
    - pose proof (retryLoop_from_start operation d) as H.
      destruct (retryLoop operation 3 1 0 (Error "") d) as [[r d'] evs].
      cbn in Hok. subst r. destruct H as (Hn & Hr & _). eauto. }
  destruct Hlast as (n & Hn & Hop). subst operation. cbn beta in Hop.
  destruct (executor n) as [header|e] eqn:Hex; [|discriminate].
  apply Ok_inj in Hop. subst h. split.
  - exists n, header. auto.
  - cbn. intros i. destruct (0 <? snd header)%Z eqn:Hpos; [|discriminate].
    intros [= <-]. now apply Z.ltb_lt.
Qed.

(** X6. [ping] answers [true] exactly when one of the attempts the retry
    wrapper allows (one inside a transaction, three outside) succeeds
    after retryable failures only; every exception becomes [false]. *)
Theorem ping_true_iff probe d :
  fst (fst (ping probe d)) = true <->
  exists n, 1 <= n <= (if connection d then 1 else 3) /\
            (exists u, probe n = Ok u) /\
            forall k, 1 <= k < n -> retryable probe k.
Proof.
  unfold ping, retryOnConnectionError. destruct (connection d).
  - cbn. split.
    + destruct (probe 1) as [u|e] eqn:Hp; [|discriminate]. intros _.
      exists 1. split; [lia|]. split; [eauto|]. intros k Hk. lia.
    + intros (n & Hn & [u Hu] & _). assert (n = 1) as -> by lia. now rewrite Hu.
  - pose proof (retryLoop_from_start probe d) as H.
    destruct (retryLoop probe 3 1 0 (Error "") d) as [[r d'] evs]. cbn.
    destruct H as (Hn & Hr & Hfail & Hend). split.
    + destruct r as [u|e]; [|discriminate]. intros _. exists (attempts evs). eauto.
    + intros (n & Hle & [u Hu] & Hbefore).
      destruct (lt_eq_lt_dec n (attempts evs)) as [[Hlt| ->]|Hgt].
      * destruct (Hfail n) as (e & He & _); [lia|congruence].
      * now rewrite Hr, Hu.
      * assert (Hre : retryable probe (attempts evs)) by (apply Hbefore; lia).
        specialize (Hend Hre). lia.
Qed.
End DriverCallFacts.

Lemma execute_insertId_positive_witness :
  (exists n header, 1 <= n <= 3 /\
     (fun _ : nat => Ok (1%Z, 0%Z)) n = Ok header /\
     Table.h_affectedRows {| Table.h_affectedRows := 1; Table.h_insertId := None |}
       = fst header /\
     Table.h_insertId {| Table.h_affectedRows := 1; Table.h_insertId := None |} =
       if (0 <? snd header)%Z then Some (snd header) else None) /\
  (forall i, Table.h_insertId {| Table.h_affectedRows := 1; Table.h_insertId := None |}
             = Some i -> (0 < i)%Z).
Proof.
  exact (execute_insertId_positive (fun _ => Ok (1%Z, 0%Z)) Driver.create
           {| Table.h_affectedRows := 1; Table.h_insertId := None |} eq_refl).
Defined.

(** ** Connection driver: transactions *)

Section TransactionFacts.
Import Driver.
Context {T : Type}.
Variable callback : MySQLDriver -> Res T * MySQLDriver.

(** X7. A transaction that returns a value has run the callback on a
    freshly pinned connection, committed and released it, and rolled
    nothing back; a transaction in which a rollback was issued throws. *)
Theorem transaction_returns_only_after_commit conn d :
  let '(r, d', evs) := transaction callback conn d in
  (forall v, r = Ok v ->
     connection d = false /\
     fst (callback (pin true d)) = Ok v /\
     evs = [GetConnection; BeginTransaction; Callback; Commit; Release] /\
     connection d' = false) /\
  (Rollback ∈ evs -> exists e, r = Throw e).
Proof.
  unfold transaction, begin.
  destruct (connection d) eqn:Hc.
  { split; [discriminate|]. intros H. now apply elem_of_nil in H. }
  destruct (onGetConnection conn) as [[]|e0].
  2:{ split; [discriminate|]. intros H. eauto. }
  destruct (onBeginTransaction conn) as [[]|e1].
  2:{ split; [discriminate|]. intros H. eauto. }
  unfold transactionBody. destruct (callback (pin true d)) as [[v|e] d1] eqn:Hcb.
  - unfold commit. destruct (negb (connection d1)) eqn:Hc1; cbn.
    + unfold rollback. rewrite Hc1. cbn. split; [discriminate|eauto].
    + destruct (onCommit conn) as [[]|e2]; cbn.
      * split.
        -- intros v' [= <-]. auto.
        -- intros H. exfalso. revert H. rewrite !elem_of_cons, elem_of_nil.
           intuition discriminate.
      * unfold rollback. rewrite Hc1.
        destruct (onRollback conn) as [[]|e3]; cbn; (split; [discriminate|eauto]).
  - unfold rollback. destruct (negb (connection d1)); cbn.
    + split; [discriminate|eauto].
    + destruct (onRollback conn) as [[]|e3]; cbn; (split; [discriminate|eauto]).
Qed.

(** X8. When the callback throws and the rollback succeeds, the
    transaction rolls back, releases the connection and re-throws the
    callback's exception, without a commit; the same happens with the
    commit's exception when the commit fails. *)
Theorem transaction_rolls_back_on_failure conn d d1 r :
  connection d = false ->
  onGetConnection conn = Ok tt -> onBeginTransaction conn = Ok tt ->
  onRollback conn = Ok tt ->
  callback (pin true d) = (r, d1) -> connection d1 = true ->
  (forall e, r = Throw e ->
     transaction callback conn d =
       (Throw e, pin false d1,
        [GetConnection; BeginTransaction; Callback; Rollback; Release])) /\
  (forall v e, r = Ok v -> onCommit conn = Throw e ->
     transaction callback conn d =
       (Throw e, pin false d1,
        [GetConnection; BeginTransaction; Callback; Commit; Rollback; Release])).
Proof.
  intros Hc Hget Hbegin Hrb Hcb Hc1.
  split.
  - intros e ->. unfold transaction, begin, transactionBody, rollback.
    rewrite Hc, Hget, Hbegin, Hcb, Hc1. cbn. now rewrite Hrb.
  - intros v e -> Hcommit. unfold transaction, begin, transactionBody, commit, rollback.
    rewrite Hc, Hget, Hbegin, Hcb, Hc1. cbn. rewrite Hcommit. cbn.
    rewrite Hc1. cbn. now rewrite Hrb.
Qed.

(** X9. Two ways in which a transaction leaves the driver pinned to a
    connection: when [beginTransaction] fails after the connection was
    obtained, and when the rollback itself fails, in which case the
    rollback's exception replaces the callback's.  A driver left pinned
    refuses the next transaction before running its callback. *)
Theorem transaction_failures_leave_connection_pinned conn d :
  connection d = false -> onGetConnection conn = Ok tt ->
  (forall e, onBeginTransaction conn = Throw e ->
     transaction callback conn d =
       (Throw e, pin true d, [GetConnection; BeginTransaction])) /\
  (forall e e' d1,
     onBeginTransaction conn = Ok tt ->
     callback (pin true d) = (Throw e, d1) -> connection d1 = true ->
     onRollback conn = Throw e' ->
     transaction callback conn d =
       (Throw e', d1, [GetConnection; BeginTransaction; Callback; Rollback])) /\
  (forall conn' d', connection d' = true ->
     transaction callback conn' d' =
       (Throw (Error "事务已经开始，不能重复开启"), d', [])).
Proof.
  intros Hc Hget. split; [|split].
  - intros e Hbegin. unfold transaction, begin. now rewrite Hc, Hget, Hbegin.
  - intros e e' d1 Hbegin Hcb Hc1 Hrb.
    unfold transaction, begin, transactionBody, rollback.
    rewrite Hc, Hget, Hbegin, Hcb, Hc1. cbn. now rewrite Hrb.
  - intros conn' d' Hc'. unfold transaction, begin. now rewrite Hc'.
Qed.
End TransactionFacts.

Lemma transaction_rolls_back_on_failure_witness :
  (forall e, @Throw Z (Error "boom") = Throw e ->
     Driver.transaction failingCallback healthyConnection Driver.create =
       (Throw e, Driver.pin false (Driver.pin true Driver.create),
        [Driver.GetConnection; Driver.BeginTransaction; Driver.Callback;
         Driver.Rollback; Driver.Release])) /\
  (forall v e, @Throw Z (Error "boom") = Ok v ->
     Driver.onCommit healthyConnection = Throw e ->
     Driver.transaction failingCallback healthyConnection Driver.create =
       (Throw e, Driver.pin false (Driver.pin true Driver.create),
        [Driver.GetConnection; Driver.BeginTransaction; Driver.Callback;
         Driver.Commit; Driver.Rollback; Driver.Release])).
Proof.
  exact (transaction_rolls_back_on_failure failingCallback healthyConnection
           Driver.create (Driver.pin true Driver.create) (Throw (Error "boom"))
           eq_refl eq_refl eq_refl eq_refl eq_refl eq_refl).
Defined.

Lemma transaction_failures_leave_connection_pinned_witness :
  (forall e, Driver.onBeginTransaction failingBegin = Throw e ->
     Driver.transaction failingCallback failingBegin Driver.create =
       (Throw e, Driver.pin true Driver.create,
        [Driver.GetConnection; Driver.BeginTransaction])) /\
  (forall e e' d1,
     Driver.onBeginTransaction failingBegin = Ok tt ->
     failingCallback (Driver.pin true Driver.create) = (Throw e, d1) ->
     Driver.connection d1 = true ->
     Driver.onRollback failingBegin = Throw e' ->
     Driver.transaction failingCallback failingBegin Driver.create =
       (Throw e', d1,
        [Driver.GetConnection; Driver.BeginTransaction; Driver.Callback;
         Driver.Rollback])) /\
  (forall conn' d', Driver.connection d' = true ->
     Driver.transaction failingCallback conn' d' =
       (Throw (Error "事务已经开始，不能重复开启"), d', [])).
Proof.
  exact (transaction_failures_leave_connection_pinned failingCallback failingBegin
           Driver.create eq_refl eq_refl).
Defined.

(** ** Lease lock: time-to-live, keys and ownership *)

Section LeaseFacts.
Import Redis MutexLock.


(** X11. With a renewal ratio strictly between 0 and 1, the renewal
    timer of a lease fires at least every TTL and never more often than
    once a second: the period is at least 1000 ms and stays below the
    normalized time-to-live. *)
Theorem renewInterval_below_ttl ttl ratio :
  (0 < ratio)%Q -> (ratio < 1)%Q ->
  (1000 <= renewInterval (normalizeTtl ttl) ratio < normalizeTtl ttl)%Z.
Proof.
  intros Hpos Hlt. unfold renewInterval, MIN_RENEW_INTERVAL_MS.
  assert (Httl : (5000 <= normalizeTtl ttl)%Z)
    by (unfold normalizeTtl, MIN_TTL_MS;
        generalize (default DEFAULT_TTL_MS ttl); lia).
  set (x := normalizeTtl ttl) in *. split; [lia|].
  apply Z.max_lub_lt; [lia|].
  assert (Hq : (inject_Z x * ratio < inject_Z x)%Q).
  { rewrite <- (Qmult_1_r (inject_Z x)) at 2.
    apply Qmult_lt_l; [|exact Hlt].
    change 0%Q with (inject_Z 0). rewrite <- Zlt_Qlt. lia. }
  pose proof (Qfloor_le (inject_Z x * ratio)) as Hfl.
  rewrite Zlt_Qlt. eapply Qle_lt_trans; eassumption.
Qed.


(** Starting the renewal of a lease that is already being renewed
    changes nothing: no second timer is created for the same lease
    value. *)
Lemma startAutoRenew_idempotent key v ttl ratio ttl' ratio' m :
  startAutoRenew key v ttl' ratio' (startAutoRenew key v ttl ratio m)
    = startAutoRenew key v ttl ratio m.
Proof.
  unfold startAutoRenew at 1.
  assert (Hval : MutexLock.value <$> renewMap_get (startAutoRenew key v ttl ratio m) key
                 = Some v).
  { unfold startAutoRenew.
    destruct (bool_decide _) eqn:Hsame; [now apply bool_decide_eq_true in Hsame|].
    unfold renewMap_get. cbn. rewrite lookup_insert_eq. cbn.
    now rewrite lookup_insert_eq. }
  now rewrite bool_decide_eq_true_2.
Qed.
End LeaseFacts.

Lemma renewInterval_below_ttl_witness :
  (1000 <= MutexLock.renewInterval (MutexLock.normalizeTtl (Some 1%Z)) (1 # 2)
        < MutexLock.normalizeTtl (Some 1%Z))%Z.
Proof.
  apply (renewInterval_below_ttl (Some 1%Z) (1 # 2)); reflexivity.
Defined.

(** ** Lease lock: shutdown *)

Section ShutdownFacts.
Import Redis MutexLock.















(** X14. In a lock object reached from a fresh one by any sequence of
    renewals, timer ticks and cache events, a key has at most one live
    renewal timer, and it renews the lease recorded for that key. *)
Theorem one_renewal_timer_per_key owner es c0 h1 h2 t1 t2 :
  let m := fst (envRun es (create owner, c0)) in
  intervals m !! h1 = Some t1 -> intervals m !! h2 = Some t2 ->
  t_key t1 = t_key t2 ->
  h1 = h2 /\ MutexLock.value <$> renewMap_get m (t_key t1) = Some (t_value t1).
Proof.
  intros m H1 H2 Hkey.
  assert (HI : Inv m) by apply Inv_envRun, Inv_create.
  destruct HI as [Hreg _ _].
  destruct (Hreg h1 t1 H1) as (Hm1 & r1 & Hr1 & Hv1 & Htm1).
  destruct (Hreg h2 t2 H2) as (Hm2 & r2 & Hr2 & Hv2 & Htm2).
  rewrite <- Hkey, Hm1 in Hm2. injection Hm2 as Href.
  rewrite <- Href, Hr1 in Hr2. injection Hr2 as <-.
  split; [congruence|]. unfold renewMap_get. rewrite Hm1. cbn. rewrite Hr1. cbn.
  now rewrite Hv1.
Qed.
End ShutdownFacts.

Lemma one_renewal_timer_per_key_witness :
  let m := fst (MutexLock.envRun [MutexLock.EvStartRenew "k" "v" 30000 (1 # 2)]
                  (MutexLock.create "host:1:abc", emptyCache)) in
  1 = 1 /\ MutexLock.value <$> MutexLock.renewMap_get m "k" = Some "v".
Proof.
  exact (one_renewal_timer_per_key "host:1:abc"
           [MutexLock.EvStartRenew "k" "v" 30000 (1 # 2)] emptyCache 1 1
           {| MutexLock.period := 15000; MutexLock.t_key := "k";
              MutexLock.t_value := "v"; MutexLock.t_ttlMs := 30000;
              MutexLock.t_record := 0 |}
           {| MutexLock.period := 15000; MutexLock.t_key := "k";
              MutexLock.t_value := "v"; MutexLock.t_ttlMs := 30000;
              MutexLock.t_record := 0 |}
           eq_refl eq_refl eq_refl).
Defined.

(** ** Lease lock: lock keys *)

Section LockKeyFacts.
Import MutexLock.






End LockKeyFacts.

(** ** Query compiler: filters that compile to nothing, and filters that are refused *)

Section WhereFacts.
Import Dialect MySQLDialect Table.

Lemma append_empty_r (s : string) : s +:+ "" = s.
Proof.
  induction s as [|c s IH]; [reflexivity|].
  change (String c (s +:+ "") = String c s). now rewrite IH.
Qed.

Lemma collect_undefined (fields : list (string * Value)) :
  Forall (fun kv => snd kv = VUndefined) fields ->
  collect (fun kv => createFilter (fst kv) (snd kv)) (fun _ s => s) fields = Ok ([], []).
Proof.
  induction 1 as [|[k v] fields Hv _ IH]; [reflexivity|].
  cbn in Hv. subst v. cbn [collect fst snd]. cbn [createFilter].
  rewrite IH. reflexivity.
Qed.

Lemma createWhere_undefined fields :
  Forall (fun kv => snd kv = VUndefined) fields ->
  createWhere (Some (WObject fields None None)) = Ok emptyVH.
Proof.
  intros Hall. cbn [createWhere createWhereOf].
  destruct (decide _) as [|Hne]; [reflexivity|].
  unfold createLogicalWhere, createFieldConditions.
  destruct fields as [|kv fields]; [reflexivity|].
  rewrite (collect_undefined _ Hall). reflexivity.
Qed.

(** The first exception among the members is the exception of [collect]. *)
Lemma collect_throws {A} (compile : A -> Res ValueHolders) wrap (l : list A) x e :
  x ∈ l -> compile x = Throw e -> exists e', collect compile wrap l = Throw e'.
Proof.
  induction l as [|y l IH]; intros Hin Hx; [now apply elem_of_nil in Hin|].
  cbn [collect]. apply elem_of_cons in Hin as [<-|Hin].
  - rewrite Hx. eauto.
  - destruct (compile y); [|eauto]. destruct (IH Hin Hx) as [e' ->]. eauto.
Qed.

Lemma createWhere_refuses fields AND OR k v e :
  (k, v) ∈ fields -> createFilter k v = Throw e ->
  exists e', createWhere (Some (WObject fields AND OR)) = Throw e'.
Proof.
  intros Hin Hthrow. cbn [createWhere createWhereOf].
  destruct (decide _) as [Hzero|_].
  { unfold keyCount in Hzero. destruct fields; [now apply elem_of_nil in Hin|].
    cbn in Hzero. lia. }
  unfold createLogicalWhere, createFieldConditions.
  destruct (collect_throws (fun kv => createFilter (fst kv) (snd kv)) (fun _ s => s)
              fields (k, v) e Hin Hthrow) as [e' He'].
  destruct fields as [|kv fields]; [now apply elem_of_nil in Hin|].
  rewrite He'. eauto.
Qed.

Variable query : string -> list Value -> Res (list Row).
Variable execute : string -> list Value -> Res ResultHeader.

(** X16. A filter object whose fields are all [undefined] compiles to no
    condition at all: [remove] and [update] then issue the statement they
    issue without a filter, which has no [WHERE] clause. *)
Theorem undefined_filter_is_no_filter t fields data order limit :
  Forall (fun kv => snd kv = VUndefined) fields ->
  remove execute t {| r_where := Some (WObject fields None None);
                      r_order := order; r_limit := limit |}
    = remove execute t {| r_where := None; r_order := order; r_limit := limit |} /\
  update execute t data (Some (WObject fields None None)) order limit
    = update execute t data None order limit /\
  issued (remove execute t {| r_where := Some (WObject fields None None);
                              r_order := None; r_limit := None |})
    = [("DELETE FROM " +:+ escapeIdentifier (tableName t), [])].
Proof.
  intros Hall.
  assert (Hdel : forall o l,
            buildDelete {| d_table := tableName t;
                           d_where := Some (WObject fields None None);
                           d_order := o; d_limit := l |}
            = buildDelete {| d_table := tableName t; d_where := None;
                             d_order := o; d_limit := l |}).
  { intros o l. unfold buildDelete. cbn [d_where Dialect.createWhere dialect].
    now rewrite (createWhere_undefined _ Hall). }
  split; [|split].
  - unfold remove. cbn [r_where r_order r_limit]. now rewrite Hdel.
  - unfold update, buildUpdate. cbn [up_where Dialect.createWhere dialect].
    now rewrite (createWhere_undefined _ Hall).
  - unfold remove. cbn [r_where r_order r_limit]. rewrite Hdel.
    unfold buildDelete. cbn.
    rewrite !append_empty_r. now destruct (execute _ _).
Qed.

(** X17. A filter with a field the compiler refuses (an [in] with an
    empty list, a [between] without two bounds) makes [remove] and
    [exists] throw before anything is handed to the driver, and leaves
    the table object as it was. *)
Theorem refused_filter_issues_nothing t fields AND OR order limit k v e :
  (k, v) ∈ fields -> createFilter k v = Throw e ->
  exists e',
    remove execute t {| r_where := Some (WObject fields AND OR);
                        r_order := order; r_limit := limit |} = mkRun (Throw e') t [] /\
    exists_ query t (Some (WObject fields AND OR)) = mkRun (Throw e') t [].
Proof.
  intros Hin Hthrow.
  destruct (createWhere_refuses fields AND OR k v e Hin Hthrow) as [e' He'].
  exists e'. unfold remove, exists_, buildDelete, buildExists.
  cbn [d_where e_where r_where Dialect.createWhere dialect].
  rewrite He'. split; reflexivity.
Qed.

End WhereFacts.

Lemma undefined_filter_is_no_filter_witness :
  let execute := fun _ _ => Ok {| Table.h_affectedRows := 3; Table.h_insertId := None |} in
  let t := Table.mkTable "users" None in
  let unfiltered := Dialect.WObject [("id", VUndefined)] None None in
  Table.remove execute t {| Table.r_where := Some unfiltered;
                            Table.r_order := None; Table.r_limit := None |}
    = Table.remove execute t {| Table.r_where := None;
                                Table.r_order := None; Table.r_limit := None |} /\
  Table.update execute t [("active", VBool false)] (Some unfiltered) None None
    = Table.update execute t [("active", VBool false)] None None None /\
  Table.issued (Table.remove execute t {| Table.r_where := Some unfiltered;
                                          Table.r_order := None; Table.r_limit := None |})
    = [("DELETE FROM " +:+ MySQLDialect.escapeIdentifier "users", [])].
Proof.
  apply (undefined_filter_is_no_filter
           (fun _ _ => Ok {| Table.h_affectedRows := 3; Table.h_insertId := None |})
           (Table.mkTable "users" None) [("id", VUndefined)]
           [("active", VBool false)] None None).
  apply Forall_cons_2; [reflexivity|apply Forall_nil_2].
Defined.

Lemma refused_filter_issues_nothing_witness :
  let query := fun _ _ => Ok [] in
  let execute := fun _ _ => Ok {| Table.h_affectedRows := 0; Table.h_insertId := None |} in
  let t := Table.mkTable "users" None in
  let refused := Dialect.WObject [("id", VObj [("in", VArr [])])] None None in
  exists e',
    Table.remove execute t {| Table.r_where := Some refused;
                              Table.r_order := None; Table.r_limit := None |}
      = Table.mkRun (Throw e') t [] /\
    Table.exists_ query t (Some refused) = Table.mkRun (Throw e') t [].
Proof.
  exact (refused_filter_issues_nothing
           (fun _ _ => Ok [])
           (fun _ _ => Ok {| Table.h_affectedRows := 0; Table.h_insertId := None |})
           (Table.mkTable "users" None) [("id", VObj [("in", VArr [])])] None None
           None None "id" (VObj [("in", VArr [])])
           (Error "in operator requires a non-empty array")
           (list_elem_of_here _ _) eq_refl).
Defined.

(** ** Query compiler: clauses *)

Section ClauseFacts.
Import Dialect MySQLDialect Table.

Lemma upperAscii_idempotent c : upperAscii (upperAscii c) = upperAscii c.
Proof. destruct c as [[] [] [] [] [] [] [] []]; reflexivity. Qed.

Lemma toUpperCase_idempotent s : toUpperCase (toUpperCase s) = toUpperCase s.
Proof.
  induction s as [|c s IH]; [reflexivity|]. cbn. now rewrite upperAscii_idempotent, IH.
Qed.

(** X19. [ORDER BY] directions are read without regard to letter case,
    and an entry whose direction is not [ASC] or [DESC] is dropped, so
    that the clause consists of escaped field names followed by one of
    these two words. *)
Theorem createOrder_directions entries :
  createOrder (Some (map upperDirection entries)) = createOrder (Some entries) /\
  exists kept,
    createOrder (Some entries) = join ", " kept /\
    Forall (fun item => exists field,
              item = escapeIdentifier field +:+ " ASC" \/
              item = escapeIdentifier field +:+ " DESC") kept.
Proof.
  split.
  - unfold createOrder. f_equal. induction entries as [|[k v] entries IH]; [reflexivity|].
    cbn [map flat_map]. rewrite IH. f_equal.
    destruct v; try reflexivity. cbn [upperDirection fst snd].
    now rewrite toUpperCase_idempotent.
  - unfold createOrder. eexists. split; [reflexivity|].
    induction entries as [|[k v] entries IH]; [constructor|].
    cbn [flat_map]. apply Forall_app. split; [|exact IH].
    destruct v; try constructor. cbn [fst snd].
    destruct (String.eqb (toUpperCase s) "ASC") eqn:Hasc; cbn [orb].
    + apply String.eqb_eq in Hasc. rewrite Hasc. repeat constructor. eauto.
    + destruct (String.eqb (toUpperCase s) "DESC") eqn:Hdesc; [|constructor].
      apply String.eqb_eq in Hdesc. rewrite Hdesc. repeat constructor. eauto.
Qed.

(** X20. A configured join compiles exactly when its type is one of the
    five join types and, unless the type is [CROSS], it brings a
    non-empty [using] list or, with no [using] at all, a non-empty [on]
    condition. *)
Theorem joinPart_compiles_iff tableName cfg :
  (exists s, joinPart tableName (JoinCfg cfg) = Ok s) <->
  let type := default "INNER" (j_type cfg) in
  type ∈ validTypes /\
  (type = "CROSS" \/
   (exists u us, j_using cfg = Some (u :: us)) \/
   (j_using cfg = None /\ exists on, j_on cfg = Some on /\ on <> "")).
Proof.
  cbv zeta. unfold joinPart.
  set (type := default "INNER" (j_type cfg)).
  assert (Hvalid : existsb (String.eqb type) validTypes = true <-> type ∈ validTypes).
  { rewrite existsb_exists. split.
    - intros (x & Hin & Heq). apply String.eqb_eq in Heq. subst x.
      now apply list_elem_of_In.
    - intros Hin. exists type. split; [now apply list_elem_of_In|apply String.eqb_refl]. }
  destruct (existsb (String.eqb type) validTypes) eqn:Hex; cbn [negb].
  2:{ split; [intros [s Hs]; discriminate|].
      intros [Hin _]. apply Hvalid in Hin. discriminate. }
  assert (Hin : type ∈ validTypes) by now apply Hvalid.
  destruct (String.eqb type "CROSS") eqn:Hcross.
  { apply String.eqb_eq in Hcross. split; eauto. }
  apply String.eqb_neq in Hcross.
  destruct (j_using cfg) as [[|u us]|] eqn:Husing.
  - split; [intros [s Hs]; discriminate|].
    intros (_ & [Hc|[(u & us & Hu)|(Hu & _)]]); congruence.
  - split; eauto 8.
  - destruct (j_on cfg) as [on|] eqn:Hon.
    + destruct (truthy on) eqn:Hon'.
      * apply truthy_nonempty in Hon'. split; eauto 10.
      * split; [intros [s Hs]; discriminate|].
        intros (_ & [Hc|[(u & us & Hu)|(_ & on' & Hon'' & Hne)]]); try congruence.
        injection Hon'' as <-. apply truthy_nonempty in Hne. congruence.
    + split; [intros [s Hs]; discriminate|].
      intros (_ & [Hc|[(u & us & Hu)|(_ & on' & Hon'' & _)]]); congruence.
Qed.
End ClauseFacts.

(** ** Query compiler: inserts *)

Section InsertFacts.
Import Dialect.
Context `{D : BaseDialect}.



End InsertFacts.

Section UpsertFacts.
Import Dialect MySQLDialect.

Lemma getProp_NoDup (data : list (string * Value)) k v :
  NoDup (map fst data) -> (k, v) ∈ data -> getProp data k = v.
Proof.
  induction data as [|[k' v'] data IH]; intros Hnd Hin; [now apply elem_of_nil in Hin|].
  cbn [map fst] in Hnd. apply NoDup_cons in Hnd as [Hnotin Hnd].
  cbn [getProp]. apply elem_of_cons in Hin as [[= -> ->]|Hin].
  - now rewrite String.eqb_refl.
  - destruct (String.eqb k' k) eqn:Hk; [|now apply IH].
    apply String.eqb_eq in Hk. subst k'. exfalso. apply Hnotin.
    apply list_elem_of_fmap. now exists (k, v).
Qed.

Lemma rowPlaceholders_marks (fields : list string) : forall n,
  rowPlaceholders n fields = map (fun _ => "?") fields.
Proof.
  induction fields as [|f fields IH]; intros n; [reflexivity|].
  cbn [rowPlaceholders map]. now rewrite IH.
Qed.

Lemma append_cons c s t : String c s +:+ t = String c (s +:+ t).
Proof. reflexivity. Qed.

(** X22. When every field an upsert could update is one of its unique
    keys, the statement has no [ON DUPLICATE KEY UPDATE] part: it is the
    plain one-row insert of the same data, with the same parameters. *)
Theorem buildUpsert_nothing_to_update params :
  NoDup (map fst (u_data params)) ->
  (forall kv, kv ∈ default (u_data params) (u_updateData params) ->
              fst kv ∈ u_uniqueKeys params) ->
  buildUpsert params =
    buildInsert {| i_table := u_table params; i_data := [u_data params] |}.
Proof.
  intros Hnd Hall. unfold buildUpsert, buildInsert.
  cbn [i_data i_table insertRows fst snd Dialect.escapeIdentifier
       Dialect.getPlaceholder dialect].
  set (updateFields := default (u_data params) (u_updateData params)) in *.
  assert (Hnone : List.filter
            (fun kv => negb (existsb (String.eqb (fst kv)) (u_uniqueKeys params)))
            updateFields = []).
  { clearbody updateFields. induction updateFields as [|kv l IH]; [reflexivity|].
    cbn [List.filter].
    assert (Hin : existsb (String.eqb (fst kv)) (u_uniqueKeys params) = true).
    { apply existsb_exists. exists (fst kv). split; [|apply String.eqb_refl].
      apply list_elem_of_In, Hall. apply elem_of_cons. auto. }
    rewrite Hin. cbn [negb]. apply IH. intros kv' Hkv'. apply Hall.
    apply elem_of_cons. auto. }
  rewrite Hnone. cbn [map]. f_equal. f_equal.
  - rewrite rowPlaceholders_marks, !map_map, append_empty_r.
    change (join ", " ["(" +:+ join ", " (map (fun _ : string * Value => "?") (u_data params))
                       +:+ ")"])
      with ("(" +:+ join ", " (map (fun _ : string * Value => "?") (u_data params)) +:+ ")").
    rewrite !append_assoc. repeat (rewrite ?append_cons; f_equal).
  - rewrite !app_nil_r, map_map. apply map_ext_in. intros [k v] Hin.
    cbn [fst snd]. f_equal. symmetry. apply getProp_NoDup; [exact Hnd|].
    now apply list_elem_of_In.
Qed.
End UpsertFacts.

Lemma buildUpsert_nothing_to_update_witness :
  MySQLDialect.buildUpsert
    {| Dialect.u_table := "settings"; Dialect.u_data := [("name", VStr "theme")];
       Dialect.u_uniqueKeys := ["name"]; Dialect.u_updateData := None |} =
  Dialect.buildInsert
    {| Dialect.i_table := "settings"; Dialect.i_data := [[("name", VStr "theme")]] |}.
Proof.
  apply (buildUpsert_nothing_to_update
           {| Dialect.u_table := "settings"; Dialect.u_data := [("name", VStr "theme")];
              Dialect.u_uniqueKeys := ["name"]; Dialect.u_updateData := None |}).
  - apply (bool_decide_unpack _). vm_compute. exact I.
  - intros kv Hin. apply list_elem_of_singleton in Hin. subst kv.
    apply list_elem_of_here.
Defined.

(** ** Query compiler: logical wrappers *)

Section LogicalFacts.
Import Dialect MySQLDialect.

(** X23. An [AND] or [OR] list with a single member that needs no
    brackets compiles to what the member compiles to: the wrapper adds
    neither text nor parameters. *)
Theorem singleton_logical_list_is_transparent w vh :
  createWhereOf w = Ok vh -> truthy (prepare vh) = true ->
  (andNeedsBracket w = false ->
   createWhereOf (WObject [] (Some [w]) None) = Ok vh) /\
  (orNeedsBracket w = false ->
   createWhereOf (WObject [] None (Some [w])) = Ok vh).
Proof.
  intros Hw Htruthy. destruct vh as [sql params]. cbn [prepare] in Htruthy.
  split; intros Hbracket.
  - cbn [createWhereOf]. destruct (decide _) as [Hzero|_]; [discriminate|].
    unfold createLogicalWhere, createAndConditions. cbn [collect].
    rewrite Hw. cbn. rewrite Htruthy, Hbracket. cbn. rewrite Htruthy. cbn.
    now rewrite !app_nil_r.
  - cbn [createWhereOf]. destruct (decide _) as [Hzero|_]; [discriminate|].
    unfold createLogicalWhere, createOrConditions. cbn [collect].
    rewrite Hw. cbn. rewrite Htruthy, Hbracket. cbn. rewrite Htruthy. cbn.
    now rewrite !app_nil_r.
Qed.
End LogicalFacts.

Lemma singleton_logical_list_is_transparent_witness :
  let w := Dialect.WObject [("city", VStr "Beijing")] None None in
  let vh := {| Dialect.prepare := "`city` = ?"; Dialect.holders := [VStr "Beijing"] |} in
  (MySQLDialect.andNeedsBracket w = false ->
   MySQLDialect.createWhereOf (Dialect.WObject [] (Some [w]) None) = Ok vh) /\
  (MySQLDialect.orNeedsBracket w = false ->
   MySQLDialect.createWhereOf (Dialect.WObject [] None (Some [w])) = Ok vh).
Proof.
  exact (singleton_logical_list_is_transparent
           (Dialect.WObject [("city", VStr "Beijing")] None None)
           {| Dialect.prepare := "`city` = ?"; Dialect.holders := [VStr "Beijing"] |}
           eq_refl eq_refl).
Defined.

(** ** Repository facade: outcomes of the mutating calls *)

Section MutationFacts.
Import Dialect Table.
Context `{D : BaseDialect}.
Variable execute : string -> list Value -> Res ResultHeader.


(** X25. When the backend reports a row count different from the number
    of records, [adds] throws after the [INSERT] has been executed: the
    statement stays issued, and the table object keeps its earlier last
    result. *)
Theorem adds_reports_shortfall t data sql params header :
  issued (adds execute t data) = [(sql, params)] ->
  execute sql params = Ok header ->
  h_affectedRows header <> Z.of_nat (length data) ->
  adds execute t data =
    mkRun (Throw (Error ("Expected to insert " +:+ nat_to_string (length data)
                         +:+ " rows but only " +:+ Z_to_string (h_affectedRows header)
                         +:+ " were affected")))
          t [(sql, params)].
Proof.
  unfold adds. destruct data as [|first rest]; [discriminate|].
  destruct (checkFields _ 1 rest); [discriminate|].
  destruct (buildInsert _) as [vh|e]; [|discriminate].
  intros Hissued Hexec Hrows.
  assert (Hstmt : (prepare vh, holders vh) = (sql, params)).
  { destruct (execute (prepare vh) (holders vh));
      [destruct (decide _)|]; cbn in Hissued; congruence. }
  injection Hstmt as -> ->. rewrite Hexec.
  destruct (decide _); [contradiction|reflexivity].
Qed.


(** X27. A mutating call that throws leaves the last operation result
    of the table object untouched, whichever of [adds], [update],
    [upsert] and [remove] it is; and a successful [update] or [remove]
    replaces it by a result without insert identity, so that
    [lastInsertId] never shows the identity of an earlier insert. *)
Theorem failed_mutation_keeps_last_result t :
  (forall data e, ret (adds execute t data) = Throw e ->
                  self (adds execute t data) = t) /\
  (forall data where_ order limit e,
      ret (update execute t data where_ order limit) = Throw e ->
      self (update execute t data where_ order limit) = t) /\
  (forall data uniqueKeys updateData e,
      ret (upsert execute t data uniqueKeys updateData) = Throw e ->
      self (upsert execute t data uniqueKeys updateData) = t) /\
  (forall params e, ret (remove execute t params) = Throw e ->
                    self (remove execute t params) = t) /\
  (forall data where_ order limit,
      ret (update execute t data where_ order limit) = Ok true ->
      lastInsertId (self (update execute t data where_ order limit)) = None) /\
  (forall params,
      ret (remove execute t params) = Ok true ->
      lastInsertId (self (remove execute t params)) = None /\
      type <$> getLastResult (self (remove execute t params)) = Some op_delete).
Proof.
  repeat split.
  - intros data e. unfold adds. destruct data as [|first rest]; [reflexivity|].
    destruct (checkFields _ _ _); [reflexivity|].
    destruct (buildInsert _); [|reflexivity].
    destruct (execute _ _); [|reflexivity].
    destruct (decide _); [discriminate|reflexivity].
  - intros data where_ order limit e. unfold update, updateCatch.
    destruct (buildUpdate _) as [vh|err].
    + destruct (execute _ _) as [h|err]; [discriminate|].
      destruct (String.eqb _ _); [discriminate|reflexivity].
    + destruct (String.eqb _ _); [discriminate|reflexivity].
  - intros data uniqueKeys updateData e. unfold upsert.
    destruct uniqueKeys; [reflexivity|].
    destruct (find _ _); [reflexivity|].
    destruct buildUpsert as [build|]; [|reflexivity].
    destruct (build _); [|reflexivity].
    destruct (execute _ _); [discriminate|reflexivity].
  - intros params e. unfold remove. destruct (buildDelete _); [|reflexivity].
    destruct (execute _ _); [discriminate|reflexivity].
  - intros data where_ order limit. unfold update, updateCatch.
    destruct (buildUpdate _) as [vh|err].
    + destruct (execute _ _) as [h|err]; [reflexivity|].
      destruct (String.eqb _ _); [reflexivity|discriminate].
    + destruct (String.eqb _ _); [reflexivity|discriminate].
  - unfold remove in *. destruct (buildDelete _); [|discriminate].
    destruct (execute _ _); [reflexivity|discriminate].
  - unfold remove in *. destruct (buildDelete _); [|discriminate].
    destruct (execute _ _); [reflexivity|discriminate].
Qed.
End MutationFacts.


Lemma adds_reports_shortfall_witness :
  let execute := fun _ _ => Ok {| Table.h_affectedRows := 1; Table.h_insertId := None |} in
  let t := Table.mkTable "users" None in
  let batch := [[("name", VStr "a")]; [("name", VStr "b")]] in
  Table.adds execute t batch =
    Table.mkRun
      (Throw (Error ("Expected to insert " +:+ nat_to_string (length batch)
                     +:+ " rows but only " +:+ Z_to_string 1 +:+ " were affected")))
      t [("INSERT INTO `users` (`name`) VALUES (?), (?)", [VStr "a"; VStr "b"])].
Proof.
  apply (adds_reports_shortfall
           (fun _ _ => Ok {| Table.h_affectedRows := 1; Table.h_insertId := None |})
           (Table.mkTable "users" None)
           [[("name", VStr "a")]; [("name", VStr "b")]]
           "INSERT INTO `users` (`name`) VALUES (?), (?)" [VStr "a"; VStr "b"]
           {| Table.h_affectedRows := 1; Table.h_insertId := None |});
    [reflexivity|reflexivity|discriminate].
Defined.

(** ** Repository facade: reading calls *)

Section ReadFacts.
Import Dialect Table.

Section AnyDialect.
Context `{D : BaseDialect}.
Variable query : string -> list Value -> Res (list Row).

(** X28. Without a positive [limit] a [gets] call has no [LIMIT] clause
    and its [offset] is ignored: the call is the same whatever offset is
    passed.  A reading call never changes the table object. *)
Theorem gets_offset_needs_limit t params offset' :
  positiveLimit (g_limit params) = None ->
  gets query t params =
    gets query t {| g_where := g_where params; g_order := g_order params;
                    g_offset := offset'; g_limit := g_limit params;
                    g_field := g_field params; g_join := g_join params;
                    g_groupBy := g_groupBy params; g_having := g_having params |} /\
  self (gets query t params) = t.
Proof.
  intros Hlimit. split.
  - unfold gets, buildSelect.
    cbn [s_table s_fields s_where s_order s_limit s_offset s_join s_groupBy s_having
         g_where g_order g_offset g_limit g_field g_join g_groupBy g_having].
    now rewrite Hlimit.
  - unfold gets. now destruct (buildSelect _).
Qed.
End AnyDialect.

Variable query : string -> list Value -> Res (list Row).

(** X29. Under the MySQL dialect, the statement [get] issues ends with
    [LIMIT 1], as does the statement of [exists]; [get] answers the first
    row or [null], [exists] whether there is a row, and [count] the
    [total_num] of the first row, or 0 when the backend answers no row. *)
Theorem single_row_reads t params where_ countArgs :
  (forall stmt, stmt ∈ issued (get query t params) ->
                exists body, fst stmt = body +:+ " LIMIT 1") /\
  (forall stmt, stmt ∈ issued (exists_ query t where_) ->
                exists body, fst stmt = body +:+ " LIMIT 1") /\
  (forall stmt rows, issued (get query t params) = [stmt] ->
                     query (fst stmt) (snd stmt) = Ok rows ->
                     ret (get query t params) = Ok (head rows)) /\
  (forall stmt rows, issued (exists_ query t where_) = [stmt] ->
                     query (fst stmt) (snd stmt) = Ok rows ->
                     ret (exists_ query t where_) = Ok (bool_decide (rows <> []))) /\
  (forall stmt, issued (count query t countArgs) = [stmt] ->
                query (fst stmt) (snd stmt) = Ok [] ->
                ret (count query t countArgs) = Ok (VNum 0)).
Proof.
  split; [|split; [|split; [|split]]].
  - intros stmt. unfold get, gets, buildSelect. cbn.
    destruct (MySQLDialect.createJoin _); cbn; [|intros H; now apply elem_of_nil in H].
    destruct (MySQLDialect.createWhere _); cbn; [|intros H; now apply elem_of_nil in H].
    intros H. apply list_elem_of_singleton in H. subst stmt. cbn [fst]. eauto.
  - intros stmt. unfold exists_, buildExists. cbn.
    destruct (MySQLDialect.createWhere _); cbn; [|intros H; now apply elem_of_nil in H].
    intros H. apply list_elem_of_singleton in H. subst stmt. cbn [fst]. eauto.
  - intros stmt rows. unfold get, gets. destruct (buildSelect _); [|discriminate].
    cbn. intros [= <-]. cbn. now intros ->.
  - intros stmt rows. unfold exists_. destruct (buildExists _); [|discriminate].
    cbn. intros [= <-]. cbn. intros ->. cbn. f_equal.
    destruct rows; cbn; [reflexivity|].
    apply bool_decide_eq_true_2. lia.
  - intros stmt. unfold count. destruct (buildCount _); [|discriminate].
    cbn. intros [= <-]. cbn. now intros ->.
Qed.
End ReadFacts.

Lemma gets_offset_needs_limit_witness :
  let query := fun _ _ => Ok [] in
  let t := Table.mkTable "users" None in
  let params offset :=
    {| Table.g_where := None; Table.g_order := None; Table.g_offset := offset;
       Table.g_limit := Some 0%Z; Table.g_field := None; Table.g_join := None;
       Table.g_groupBy := None; Table.g_having := None |} in
  Table.gets query t (params (Some 20%Z)) = Table.gets query t (params None) /\
  Table.self (Table.gets query t (params (Some 20%Z))) = t.
Proof.
  exact (gets_offset_needs_limit (fun _ _ => Ok []) (Table.mkTable "users" None)
           {| Table.g_where := None; Table.g_order := None; Table.g_offset := Some 20%Z;
              Table.g_limit := Some 0%Z; Table.g_field := None; Table.g_join := None;
              Table.g_groupBy := None; Table.g_having := None |}
           None eq_refl).
Defined.

(** ** Table identifiers *)

Section IdentifierFacts.
Import MySQLService.

Lemma prefix_append a : forall b, String.prefix a b = true -> exists b', b = a +:+ b'.
Proof.
  induction a as [|c a IH]; intros b.
  - intros _. now exists b.
  - destruct b as [|c' b]; cbn; [discriminate|].
    destruct (Ascii.ascii_dec c c') as [<-|]; [|discriminate].
    intros H. destruct (IH b H) as [b' ->]. now exists b'.
Qed.

Lemma splitFrom_skip sep p : forall s,
  splitFrom sep (String.length p) (p +:+ s) = splitFrom sep 0 s.
Proof. induction p as [|c p IH]; intros s; [reflexivity|]. apply IH. Qed.

Lemma splitFrom_nonempty sep s : forall skip, splitFrom sep skip s <> [].
Proof.
  induction s as [|c s IH]; intros skip; cbn [splitFrom]; [discriminate|].
  destruct skip; [|apply IH].
  destruct (String.prefix sep (String c s)); [discriminate|].
  destruct (splitFrom sep 0 s); discriminate.
Qed.

Lemma join_cons_char sep c h t :
  join sep (String c h :: t) = String c (join sep (h :: t)).
Proof. destruct t; reflexivity. Qed.

Lemma length_append (a b : string) :
  String.length (a +:+ b) = String.length a + String.length b.
Proof.
  induction a as [|c a IH]; [reflexivity|].
  change (S (String.length (a +:+ b)) = S (String.length a + String.length b)).
  now rewrite IH.
Qed.

(** Joining the pieces with the separator gives the string back. *)
Lemma join_splitFrom sep n : forall s,
  sep <> "" -> String.length s <= n -> join sep (splitFrom sep 0 s) = s.
Proof.
  induction n as [|n IH]; intros s Hsep Hlen.
  - destruct s; [reflexivity|cbn in Hlen; lia].
  - destruct s as [|c rest]; [reflexivity|]. cbn [splitFrom].
    destruct (String.prefix sep (String c rest)) eqn:Hpre.
    + destruct (prefix_append _ _ Hpre) as [s' Hs'].
      destruct sep as [|c0 sep']; [contradiction|].
      change (String c0 sep' +:+ s') with (String c0 (sep' +:+ s')) in Hs'.
      injection Hs' as -> ->.
      cbn [String.length].
      replace (S (String.length sep') - 1) with (String.length sep') by lia.
      rewrite splitFrom_skip.
      assert (Hs : join (String c0 sep') (splitFrom (String c0 sep') 0 s') = s').
      { apply IH; [discriminate|]. cbn in Hlen. rewrite length_append in Hlen. lia. }
      destruct (splitFrom (String c0 sep') 0 s') as [|h t] eqn:Hsplit;
        [now apply splitFrom_nonempty in Hsplit|].
      change (join (String c0 sep') ("" :: h :: t))
        with (String c0 sep' +:+ join (String c0 sep') (h :: t)).
      now rewrite Hs.
    + assert (Hs : join sep (splitFrom sep 0 rest) = rest).
      { apply IH; [exact Hsep|]. cbn in Hlen. lia. }
      destruct (splitFrom sep 0 rest) as [|h t] eqn:Hsplit;
        [now apply splitFrom_nonempty in Hsplit|].
      now rewrite join_cons_char, Hs.
Qed.

Lemma splitFrom_without_separator sep s :
  includes sep s = false -> splitFrom sep 0 s = [s].
Proof.
  induction s as [|c rest IH]; [reflexivity|].
  cbn [includes splitFrom].
  destruct (String.prefix sep (String c rest)); [discriminate|].
  intros H. now rewrite (IH H).
Qed.

(** X30. With a non-empty separator, [stateParse] loses nothing: an
    identifier it accepts either has no separator and names a table of
    the [default] database, or is the database name, the separator and
    the rest, both non-empty, the rest keeping any further separator.
    An identifier without the separator is always accepted. *)
Theorem stateParse_round_trip statement separator :
  separator <> "" ->
  (forall db tb, stateParse statement separator = Ok (db, tb) ->
     (db = "default" /\ tb = statement /\ split separator statement = [statement]) \/
     (statement = db +:+ separator +:+ tb /\ db <> "" /\ tb <> "")) /\
  (includes separator statement = false ->
   stateParse statement separator = Ok ("default", statement)).
Proof.
  intros Hsep.
  assert (Hsplit : split separator statement = splitFrom separator 0 statement).
  { unfold split. apply truthy_nonempty in Hsep. now rewrite Hsep. }
  pose proof (join_splitFrom separator (String.length statement) statement Hsep
                (Nat.le_refl _)) as Hjoin.
  unfold stateParse. rewrite Hsplit. split.
  - intros db tb.
    destruct (splitFrom separator 0 statement) as [|dbName [|p parts]]; [discriminate| |].
    + intros [= <- <-]. left. cbn in Hjoin. subst dbName. auto.
    + destruct (truthy dbName) eqn:Hdb; [|discriminate].
      destruct (truthy (join separator (p :: parts))) eqn:Htb; [|discriminate].
      cbn. intros [= <- <-]. right.
      apply truthy_nonempty in Hdb, Htb. split; [|auto].
      rewrite <- Hjoin. reflexivity.
  - intros Hno. now rewrite (splitFrom_without_separator _ _ Hno).
Qed.
End IdentifierFacts.

Lemma stateParse_round_trip_witness :
  (forall db tb, MySQLService.stateParse "logs::app::2024" "::" = Ok (db, tb) ->
     (db = "default" /\ tb = "logs::app::2024" /\
      MySQLService.split "::" "logs::app::2024" = ["logs::app::2024"]) \/
     ("logs::app::2024" = db +:+ "::" +:+ tb /\ db <> "" /\ tb <> "")) /\
  (includes "::" "logs::app::2024" = false ->
   MySQLService.stateParse "logs::app::2024" "::" = Ok ("default", "logs::app::2024")).
Proof.
  apply (stateParse_round_trip "logs::app::2024" "::"). discriminate.
Defined.
